(** * express-rate-limit: the limiting middleware of [lib/express-rate-limit.js]

    A shallow embedding of [RateLimit(options)] and of the middleware
    [rateLimit(req, res, next)] it returns, followed by the properties
    of the admission decision, of the verdict attached to the request,
    of skip accounting and of the error paths.

    Conventions of the embedding.
    - JavaScript numbers are the integers [Z] (counts, thresholds and
      millisecond timestamps are integers in this program); the values a
      threshold can take at run time are the type [JS.Value].  The sum
      [max + 1] of line 136 is rounded to the nearest double, as the
      addition of JavaScript is.
    - A promise is represented by its settled state; a function supplied
      by the application ([skip], [keyGenerator], a [max] function) is a
      Rocq function giving what the call produces.  [skip] and
      [keyGenerator] are called outside every promise and may throw;
      [keyGenerator] may also return an object with a [then] method
      that is not a promise.  A [max] function returns.
    - The middleware runs in a monad that threads the mutable state
      (store contents, response fields, [req.rateLimit], the listeners
      registered on [res], the [decremented] latch), collects the calls
      made to the host and to the store as a list of events, and can
      raise a JavaScript exception.
    - [res.on], [next], [options.onLimitReached] and an application
      supplied [options.handler] belong to the host: a call to one of
      them is recorded as an event and returns normally.
      [res.setHeader] throws when it is given the value [undefined],
      as the one of Node does, and otherwise records the call.
    - The store is an object with optional methods over its contents;
      [incr] calls its callback once, with an error or with the count
      and the reset time. *)

From stdpp Require Import base gmap strings list.
From Stdlib Require Import ZArith Lia.

Local Open Scope string_scope.
Local Open Scope list_scope.
Local Open Scope Z_scope.

(** ** JavaScript values and the operators the middleware applies to them *)

Module JS.

Inductive Value : Type :=
| undefined
| null
| boolean (b : bool)
| number (n : Z)
| NaN.

(** ToBoolean, as applied by [if (max && ...)]. *)
Definition truthy (v : Value) : bool :=
  match v with
  | undefined | null | NaN => false
  | boolean b => b
  | number n => negb (n =? 0)
  end.

(** ToNumber; [None] stands for NaN. *)
Definition ToNumber (v : Value) : option Z :=
  match v with
  | undefined | NaN => None
  | null => Some 0
  | boolean b => Some (if b then 1 else 0)
  | number n => Some n
  end.

Definition of_number (o : option Z) : Value :=
  match o with
  | Some n => number n
  | None => NaN
  end.

(** [a - b], computed on the integers. *)
Definition sub (a b : Value) : Value :=
  of_number (x ← ToNumber a; y ← ToNumber b; Some (x - y)).

(** The double nearest to the integer [z], ties going to the even
    significand (of 53 bits): every integer up to [2^53] in absolute
    value is a double, beyond that only the multiples of a power of
    two are. *)
Definition to_double (z : Z) : Z :=
  let a := Z.abs z in
  if a <=? 2 ^ 53 then z
  else
    let ulp := 2 ^ (Z.log2 a - 52) in
    let m := a / ulp in
    let r := a mod ulp in
    let m' := if 2 * r <? ulp then m
              else if ulp <? 2 * r then m + 1
              else if Z.even m then m else m + 1 in
    Z.sgn z * (m' * ulp).

(** [a + b]; none of the values of [Value] is a string, so [+] is the
    numeric addition, rounded to a double. *)
Definition add (a b : Value) : Value :=
  of_number (x ← ToNumber a; y ← ToNumber b; Some (to_double (x + y))).

(** [a > b]; a comparison with NaN is false. *)
Definition gt (a b : Value) : bool :=
  match ToNumber a, ToNumber b with
  | Some x, Some y => y <? x
  | _, _ => false
  end.

(** [a === b] *)
Definition strict_eq (a b : Value) : bool :=
  match a, b with
  | undefined, undefined => true
  | null, null => true
  | boolean x, boolean y => eqb x y
  | number x, number y => x =? y
  | _, _ => false
  end.

(** [Math.max(a, b)]: NaN as soon as one argument converts to NaN. *)
Definition Math_max (a b : Value) : Value :=
  match ToNumber a, ToNumber b with
  | Some x, Some y => number (Z.max x y)
  | _, _ => NaN
  end.

(** [Math.ceil(x / d)] for integers [x] and a positive integer [d]. *)
Definition Math_ceil_div (x d : Z) : Z := - ((- x) / d).


(** [value === undefined] *)
Definition is_undefined (v : Value) : bool :=
  match v with
  | undefined => true
  | _ => false
  end.

(** *** Promises, by their settled state *)

(** A value that is thrown, or passed as an error: a string. *)
Definition Error := string.

(** ToBoolean on such a value, as applied by [if (err)]: the empty
    string is the falsy one. *)
Definition truthy_error (e : Error) : bool :=
  match e with
  | EmptyString => false
  | String _ _ => true
  end.

Inductive Promise (A : Type) : Type :=
| fulfilled (a : A)
| rejected (e : Error).
Arguments fulfilled {A} a.
Arguments rejected {A} e.

(** What a function that "may return a promise" returns. *)
Inductive Deferred (A : Type) : Type :=
| plain (a : A)
| promise (p : Promise A).
Arguments plain {A} a.
Arguments promise {A} p.

Definition isPromise {A} (d : Deferred A) : bool :=
  match d with
  | plain _ => false
  | promise _ => true
  end.

(** [Promise.resolve(d)] *)
Definition Promise_resolve {A} (d : Deferred A) : Promise A :=
  match d with
  | plain a => fulfilled a
  | promise p => p
  end.

(** An object with a [then] method that is not a promise: what calling
    [.then(f).catch(g)] on it does.  Its [then] throws, or returns
    [undefined] without having called [f], so that [.catch] fails.
    An object whose [then] and [catch] behave as those of a promise
    is a [promise]. *)
Inductive Thenable : Type :=
| then_throws (e : Error)
| then_returns_undefined.

(** What [options.keyGenerator] returns: a key, a promise of a key, or
    such an object. *)
Inductive KeyValue : Type :=
| key_value (d : Deferred string)
| key_thenable (t : Thenable).

(** The completion of a call: it returns a value or throws. *)
Inductive Completion (A : Type) : Type :=
| returns (a : A)
| throws (e : Error).
Arguments returns {A} a.
Arguments throws {A} e.

End JS.

Import JS.

(** ** Data model *)

(** The request and the response, by the fields the middleware and the
    default options read. *)
Record Req : Type := mkReq { ip : string }.

Record Res : Type := mkRes {
  headersSent : bool;
  statusCode : Z;
  finished : bool
}.

(** A response on which nothing was written yet. *)
Definition fresh_res : Res :=
  {| headersSent := false; statusCode := 200; finished := false |}.

(** The continuation [next]; [next_returns] is what a call to it
    evaluates to ([undefined] with Express). *)
Record Next : Type := mkNext { next_returns : Value }.

(** [req.rateLimit]; [resetTime] is [Some t] when the store handed a
    [Date] of [t] milliseconds, [None] for anything else. *)
Record RateLimitInfo : Type := mkRateLimitInfo {
  limit : Value;
  current : Z;
  remaining : Value;
  resetTime : option Z
}.

(** What the store passes to the callback of [incr]:
    [(err, current, resetTime)] with a string as [err], or
    [(null, current, resetTime)]. *)
Inductive IncrResult : Type :=
| incr_err (err : Error) (current : Z) (resetTime : option Z)
| incr_ok (current : Z) (resetTime : option Z).

Inductive Signal : Type := finish | close | error.

#[global] Instance Signal_eq_dec : EqDecision Signal.
Proof. solve_decision. Defined.

(** The four closures registered with [res.on], each with the [key] it
    captured. *)
Inductive Listener : Type :=
| failed_on_finish (key : string)
| failed_on_close (key : string)
| failed_on_error (key : string)
| successful_on_finish (key : string).

Inductive HeaderValue : Type :=
| hv (v : Value)
| hv_date (ms : Z).     (* [new Date(ms).toGMTString()] *)

(** The calls that leave the middleware, in the order they are made. *)
Inductive Event : Type :=
| CallNext (err : option Error)
| StoreIncr (key : string)
| StoreDecrement (key : string)
| StoreResetKey (key : string)
| SetRateLimit (info : RateLimitInfo)
| SetHeader (name : string) (value : HeaderValue)
| ResOn (sig : Signal) (l : Listener)
| OnLimitReached
| CallHandler
| ResStatus (code : Z)
| ResSend (message : string)
| UnhandledRejection (err : Error).  (* a promise rejected with no handler *)

(** *** The store interface

    A store is an object whose methods may be missing; [S] is the type
    of its contents.  [incr] is given the clock reading at the call. *)
Record Store (S : Type) : Type := mkStore {
  incr : option (string → Z → S → IncrResult * S);
  resetKey : option (string → S → S);
  decrement : option (string → S → S)
}.
Arguments mkStore {S} _ _ _.
Arguments incr {S} _.
Arguments resetKey {S} _.
Arguments decrement {S} _.

(** *** Options *)

Inductive MaxOption : Type :=
| max_value (d : Deferred Value)
| max_function (f : Req → Res → Deferred Value).

Inductive HandlerOption : Type :=
| default_handler      (* [res.status(options.statusCode).send(options.message)] *)
| custom_handler.

Record Options (S : Type) : Type := mkOptions {
  windowMs : Z;
  max : MaxOption;
  message : string;
  optStatusCode : Z;
  headers : bool;
  skipFailedRequests : bool;
  skipSuccessfulRequests : bool;
  keyGenerator : Req → Res → Completion KeyValue;
  skip : Req → Res → Completion bool;
  handler : HandlerOption;
  store : option (Store S);
  global : Value;
  delayMs : Value;
  delayAfter : Value
}.
Arguments mkOptions {S}.
Arguments windowMs {S} _.
Arguments max {S} _.
Arguments message {S} _.
Arguments optStatusCode {S} _.
Arguments headers {S} _.
Arguments skipFailedRequests {S} _.
Arguments skipSuccessfulRequests {S} _.
Arguments keyGenerator {S} _.
Arguments skip {S} _.
Arguments handler {S} _.
Arguments store {S} _.
Arguments global {S} _.
Arguments delayMs {S} _.
Arguments delayAfter {S} _.

(** The object literal of defaults (lines 7-27). *)
Definition defaults {S} : Options S := {|
  windowMs := 60 * 1000;
  max := max_value (plain (number 5));
  message := "Too many requests, please try again later.";
  optStatusCode := 429;
  headers := true;
  skipFailedRequests := false;
  skipSuccessfulRequests := false;
  keyGenerator := λ req _, returns (key_value (plain (ip req)));
  skip := λ _ _, returns false;
  handler := default_handler;
  store := None;
  global := undefined;
  delayMs := undefined;
  delayAfter := undefined
|}.

(** One property of the object passed by the application. *)
Inductive Property (S : Type) : Type :=
| p_windowMs (v : Z)
| p_max (v : MaxOption)
| p_message (v : string)
| p_statusCode (v : Z)
| p_headers (v : bool)
| p_skipFailedRequests (v : bool)
| p_skipSuccessfulRequests (v : bool)
| p_keyGenerator (v : Req → Res → Completion KeyValue)
| p_skip (v : Req → Res → Completion bool)
| p_handler (v : HandlerOption)
| p_store (v : option (Store S))
| p_global (v : Value)
| p_delayMs (v : Value)
| p_delayAfter (v : Value).
Arguments p_windowMs {S} v.
Arguments p_max {S} v.
Arguments p_message {S} v.
Arguments p_statusCode {S} v.
Arguments p_headers {S} v.
Arguments p_skipFailedRequests {S} v.
Arguments p_skipSuccessfulRequests {S} v.
Arguments p_keyGenerator {S} v.
Arguments p_skip {S} v.
Arguments p_handler {S} v.
Arguments p_store {S} v.
Arguments p_global {S} v.
Arguments p_delayMs {S} v.
Arguments p_delayAfter {S} v.

Definition assign_property {S} (o : Options S) (p : Property S) : Options S :=
  let '(mkOptions w m msg sc h sf ss kg sk hd st g dm da) := o in
  match p with
  | p_windowMs v => mkOptions v m msg sc h sf ss kg sk hd st g dm da
  | p_max v => mkOptions w v msg sc h sf ss kg sk hd st g dm da
  | p_message v => mkOptions w m v sc h sf ss kg sk hd st g dm da
  | p_statusCode v => mkOptions w m msg v h sf ss kg sk hd st g dm da
  | p_headers v => mkOptions w m msg sc v sf ss kg sk hd st g dm da
  | p_skipFailedRequests v => mkOptions w m msg sc h v ss kg sk hd st g dm da
  | p_skipSuccessfulRequests v => mkOptions w m msg sc h sf v kg sk hd st g dm da
  | p_keyGenerator v => mkOptions w m msg sc h sf ss v sk hd st g dm da
  | p_skip v => mkOptions w m msg sc h sf ss kg v hd st g dm da
  | p_handler v => mkOptions w m msg sc h sf ss kg sk v st g dm da
  | p_store v => mkOptions w m msg sc h sf ss kg sk hd v g dm da
  | p_global v => mkOptions w m msg sc h sf ss kg sk hd st v dm da
  | p_delayMs v => mkOptions w m msg sc h sf ss kg sk hd st g v da
  | p_delayAfter v => mkOptions w m msg sc h sf ss kg sk hd st g dm v
  end.

(** [Object.assign(target, source)]: the properties of [source]
    overwrite those of [target], a later one winning. *)
Definition Object_assign {S} (target : Options S) (source : list (Property S)) : Options S :=
  foldl assign_property target source.

(** ** The state the middleware runs in, and its monad *)

(** The contents of the store are shared by all requests; the other
    fields belong to the request being served: the response, the
    property [req.rateLimit], the listeners registered on [res] in
    registration order, and the variable [decremented] of line 103.
    [clock] is what [new Date()] reads. *)
Record State (S : Type) : Type := mkState {
  contents : S;
  res : Res;
  rateLimitInfo : option RateLimitInfo;
  listeners : list (Signal * Listener);
  decremented : bool;
  clock : Z
}.
Arguments mkState {S}.
Arguments contents {S} _.
Arguments res {S} _.
Arguments rateLimitInfo {S} _.
Arguments listeners {S} _.
Arguments decremented {S} _.
Arguments clock {S} _.

Inductive Result (A : Type) : Type :=
| Ok (a : A)
| Raise (e : Error).
Arguments Ok {A} a.
Arguments Raise {A} e.

(** A computation: from a state to a result, the new state and the
    events emitted on the way. *)
Definition M (S A : Type) : Type := State S → Result A * State S * list Event.

Section Monad.
Context {S : Type}.

#[global] Instance M_ret : MRet (M S) := λ A a s, (Ok a, s, []).

#[global] Instance M_bind : MBind (M S) := λ A B f m s,
  match m s with
  | (Ok a, s1, l1) => let '(r, s2, l2) := f a s1 in (r, s2, l1 ++ l2)
  | (Raise e, s1, l1) => (Raise e, s1, l1)
  end.

Definition raise {A} (e : Error) : M S A := λ s, (Raise e, s, []).

(** [try { m } catch (err) { h(err) }], also the reading of
    [promise.catch(h)] for what is thrown while the promise settles. *)
Definition try_catch {A} (m : M S A) (h : Error → M S A) : M S A := λ s,
  match m s with
  | (Ok a, s1, l1) => (Ok a, s1, l1)
  | (Raise e, s1, l1) => let '(r, s2, l2) := h e s1 in (r, s2, l1 ++ l2)
  end.

Definition emit (e : Event) : M S unit := λ s, (Ok tt, s, [e]).

(** A promise chain that nobody awaits and that ends without a
    [catch]: what is thrown inside it becomes an unhandled rejection
    and does not reach the caller. *)
Definition detached (m : M S unit) : M S unit := λ s,
  match m s with
  | (Ok _, s1, l1) => (Ok tt, s1, l1)
  | (Raise e, s1, l1) => (Ok tt, s1, l1 ++ [UnhandledRejection e])
  end.

Definition gets {A} (f : State S → A) : M S A := λ s, (Ok (f s), s, []).

Definition modify (f : State S → State S) : M S unit := λ s, (Ok tt, f s, []).

Definition when (b : bool) (m : M S unit) : M S unit :=
  if b then m else mret tt.

Definition set_contents (c : S) (s : State S) : State S :=
  mkState c (res s) (rateLimitInfo s) (listeners s) (decremented s) (clock s).

Definition set_res (r : Res) (s : State S) : State S :=
  mkState (contents s) r (rateLimitInfo s) (listeners s) (decremented s) (clock s).

Definition set_rateLimitInfo (i : RateLimitInfo) (s : State S) : State S :=
  mkState (contents s) (res s) (Some i) (listeners s) (decremented s) (clock s).

Definition add_listener (sig : Signal) (l : Listener) (s : State S) : State S :=
  mkState (contents s) (res s) (rateLimitInfo s) (listeners s ++ [(sig, l)])
          (decremented s) (clock s).

Definition set_decremented (b : bool) (s : State S) : State S :=
  mkState (contents s) (res s) (rateLimitInfo s) (listeners s) b (clock s).

(** The events of a run, its final state and its result. *)
Definition events {A} (r : Result A * State S * list Event) : list Event := r.2.
Definition final {A} (r : Result A * State S * list Event) : State S := r.1.2.
Definition result {A} (r : Result A * State S * list Event) : Result A := r.1.1.

End Monad.

(** ** The middleware (lines 53-155) *)

Section RateLimit.
Context {S : Type}.

(** [options] after line 29, and [options.store] after line 32. *)
Variable options : Options S.
Variable the_store : Store S.

(** [next()] and [next(err)] *)
Definition call_next (next : Next) (err : option Error) : M S Value :=
  emit (CallNext err);; mret (next_returns next).

(** The error of [res.setHeader] for the value [undefined]. *)
Definition header_error (name : string) : Error :=
  "TypeError [ERR_HTTP_INVALID_HEADER_VALUE]: Invalid value undefined for header "
  +:+ name.

(** [res.setHeader(name, value)]: the response refuses [undefined]. *)
Definition setHeader (name : string) (value : HeaderValue) : M S unit :=
  match value with
  | hv undefined => raise (header_error name)
  | _ => emit (SetHeader name value)
  end.

(** [res.on(sig, l)] *)
Definition res_on (sig : Signal) (l : Listener) : M S unit :=
  emit (ResOn sig l);; modify (add_listener sig l).

(** A call of a method that the store may lack: calling [undefined]
    throws a TypeError. *)
Definition TypeError (method : string) : Error :=
  "TypeError: options.store." +:+ method +:+ " is not a function".

(** [options.store.decrement(key)] *)
Definition store_decrement (key : string) : M S unit :=
  match decrement the_store with
  | None => raise (TypeError "decrement")
  | Some f =>
      emit (StoreDecrement key);;
      c ← gets contents;
      modify (set_contents (f key c))
  end.

(** [options.store.resetKey(key)] *)
Definition store_resetKey (key : string) : M S unit :=
  match resetKey the_store with
  | None => raise (TypeError "resetKey")
  | Some f =>
      emit (StoreResetKey key);;
      c ← gets contents;
      modify (set_contents (f key c))
  end.

(** [options.store.incr(key, cb)] *)
Definition store_incr (key : string) (cb : IncrResult → M S unit) : M S unit :=
  match incr the_store with
  | None => raise (TypeError "incr")
  | Some f =>
      emit (StoreIncr key);;
      c ← gets contents;
      now ← gets clock;
      let '(r, c') := f key now c in
      modify (set_contents c');;
      cb r
  end.

(** [decrementKey] (lines 104-109) *)
Definition decrementKey (key : string) : M S unit :=
  d ← gets decremented;
  when (negb d) (
    store_decrement key;;
    modify (set_decremented true)).

(** [options.handler(req, res, next)]; the default one (lines 23-25)
    sets the status and sends the message, which ends the response. *)
Definition call_handler : M S unit :=
  emit CallHandler;;
  match handler options with
  | default_handler =>
      emit (ResStatus (optStatusCode options));;
      emit (ResSend (message options));;
      modify (set_res {| headersSent := true;
                         statusCode := optStatusCode options;
                         finished := true |})
  | custom_handler => mret tt
  end.

(** [maxResult] (lines 71-74) *)
Definition maxResult (req : Req) (rs : Res) : Deferred Value :=
  match max options with
  | max_function f => f req rs
  | max_value d => d
  end.

(** [keyPromise] (lines 60-62) *)
Definition keyPromise (keyValue : Deferred string) : Promise string :=
  if isPromise keyValue then
    match keyValue with
    | promise p => p
    | plain a => fulfilled a
    end
  else Promise_resolve keyValue.

(** The function given to [.then] (lines 78-151), applied to [max]. *)
Definition then_max (next : Next) (key : string) (current : Z)
    (resetTime : option Z) (max : Value) : M S unit :=
  let info := {| limit := max;
                 current := current;
                 remaining := Math_max (sub max (number current)) (number 0);
                 resetTime := resetTime |} in
  emit (SetRateLimit info);;
  modify (set_rateLimitInfo info);;
  rs ← gets res;
  when (headers options && negb (headersSent rs)) (
    setHeader "X-RateLimit-Limit" (hv max);;
    setHeader "X-RateLimit-Remaining" (hv (remaining info));;
    match resetTime with
    | Some t =>
        now ← gets clock;
        setHeader "Date" (hv_date now);;
        setHeader "X-RateLimit-Reset" (hv (number (Math_ceil_div t 1000)))
    | None => mret tt
    end);;
  when (skipFailedRequests options || skipSuccessfulRequests options) (
    modify (set_decremented false);;
    when (skipFailedRequests options) (
      res_on finish (failed_on_finish key);;
      res_on close (failed_on_close key);;
      res_on error (failed_on_error key));;
    when (skipSuccessfulRequests options) (
      res_on finish (successful_on_finish key)));;
  when (truthy max && strict_eq (number current) (add max (number 1))) (
    emit OnLimitReached);;
  if truthy max && gt (number current) max then
    rs ← gets res;
    when (headers options && negb (headersSent rs)) (
      setHeader "Retry-After"
                (hv (number (Math_ceil_div (windowMs options) 1000))));;
    call_handler
  else
    call_next next None;; mret tt.

(** Lines 71-151: the threshold is resolved and the function of lines
    78-151 runs on it.  With [.catch(next)] placed before [.then], a
    rejected [maxResult] calls [next(err)] and the chain goes on with
    what [next] returned.  The chain is not returned and has no final
    [catch]. *)
Definition resolve_and_decide (req : Req) (next : Next) (key : string)
    (current : Z) (resetTime : option Z) : M S unit :=
  rs ← gets res;
  detached (
    max ← match Promise_resolve (maxResult req rs) with
          | fulfilled v => mret v
          | rejected err => call_next next (Some err)
          end;
    then_max next key current resetTime max).

(** The callback given to [options.store.incr] (lines 66-152); line 67
    tests the truthiness of [err]. *)
Definition incr_callback (req : Req) (next : Next) (key : string)
    (r : IncrResult) : M S unit :=
  match r with
  | incr_err err current resetTime =>
      if truthy_error err then call_next next (Some err);; mret tt
      else resolve_and_decide req next key current resetTime
  | incr_ok current resetTime =>
      resolve_and_decide req next key current resetTime
  end.

(** [keyValue.then(...).catch(...)] on an object that is-promise
    accepts and that is not a promise: its own [then] is called, and
    throws, or returns [undefined], on which [.catch] throws. *)
Definition then_error (t : Thenable) : Error :=
  match t with
  | then_throws e => e
  | then_returns_undefined => "TypeError: Cannot read property 'catch' of undefined"
  end.

Definition foreign_then (t : Thenable) : M S unit := raise (then_error t).

(** [rateLimit(req, res, next)].  [options.skip] (line 54) and
    [options.keyGenerator] (line 58) are called outside every promise:
    what they throw leaves the function. *)
Definition rateLimit (req : Req) (next : Next) : M S unit :=
  rs ← gets res;
  match skip options req rs with
  | throws e => raise e
  | returns true => call_next next None;; mret tt
  | returns false =>
      match keyGenerator options req rs with
      | throws e => raise e
      | returns (key_thenable t) => foreign_then t
      | returns (key_value keyValue) =>
          match keyPromise keyValue with
          | fulfilled key =>
              try_catch (store_incr key (incr_callback req next key))
                        (λ err, call_next next (Some err);; mret tt)
          | rejected err => call_next next (Some err);; mret tt
          end
      end
  end.

(** *** The listeners, run by the host when [res] emits a signal *)

Definition run_listener (l : Listener) : M S unit :=
  rs ← gets res;
  match l with
  | failed_on_finish key => when (400 <=? statusCode rs) (decrementKey key)
  | failed_on_close key => when (negb (finished rs)) (decrementKey key)
  | failed_on_error key => decrementKey key
  | successful_on_finish key => when (statusCode rs <? 400) (store_decrement key)
  end.

Fixpoint run_listeners (ls : list Listener) : M S unit :=
  match ls with
  | [] => mret tt
  | l :: ls' => run_listener l;; run_listeners ls'
  end.

(** [res.emit(sig)]: the listeners of [sig], in registration order. *)
Definition res_emit (sig : Signal) : M S unit :=
  ls ← gets listeners;
  run_listeners
    (map snd (List.filter (λ p : Signal * Listener, bool_decide (p.1 = sig)) ls)).

End RateLimit.

(** ** The constructor (lines 5-51 and 157-163) *)

(** What [RateLimit] returns: the function [rateLimit] with its
    properties [resetKey] and [resetIp]. *)
Record Middleware (S : Type) : Type := mkMiddleware {
  mw_call : Req → Next → M S unit;
  mw_resetKey : string → M S unit;
  mw_resetIp : string → M S unit
}.
Arguments mkMiddleware {S}.
Arguments mw_call {S} _.
Arguments mw_resetKey {S} _.
Arguments mw_resetIp {S} _.

(** [typeof m === "function"] for a method that may be missing. *)
Definition is_function {A} (m : option A) : bool :=
  match m with
  | Some _ => true
  | None => false
  end.

Section Constructor.
Context {S : Type}.

(** The constructor of the default store, [require("./memory-store")],
    is not part of the file: it is a parameter, given the window
    length. *)
Variable MemoryStore : Z → Store S.

(** Lines 44-51: the first retired option that is truthy. *)
Definition retired_option (options : Options S) : option string :=
  fst <$> List.find (λ p, truthy p.2)
            [("global", global options);
             ("delayMs", delayMs options);
             ("delayAfter", delayAfter options)].

Definition RateLimit (user_options : list (Property S)) : Completion (Middleware S) :=
  let options := Object_assign defaults user_options in
  let the_store :=
    match store options with
    | Some st => st
    | None => MemoryStore (windowMs options)
    end in
  if negb (is_function (incr the_store))
     || negb (is_function (resetKey the_store))
     || (skipFailedRequests options && negb (is_function (decrement the_store)))
  then throws "The store is not valid."
  else
    match retired_option options with
    | Some key =>
        throws ("The " +:+ key +:+ " option was removed from express-rate-limit v3.")
    | None =>
        returns {| mw_call := rateLimit options the_store;
                   mw_resetKey := store_resetKey the_store;
                   mw_resetIp := store_resetKey the_store |}
    end.

End Constructor.

(** ** The host: what happens to a response after the middleware ran *)

Inductive HostStep : Type :=
| host_end (status : Z)     (* the application sets the status and ends the response *)
| host_emit (sig : Signal). (* [res] emits a signal *)

(** One request: when it arrives, what it is, its continuation and what
    the host does with its response afterwards.  Requests are served
    one after the other: the response of a request is dealt with before
    the next request arrives. *)
Record Arrival : Type := mkArrival {
  at_time : Z;
  request : Req;
  continuation : Next;
  afterwards : list HostStep
}.

Section Host.
Context {S : Type}.
Variable options : Options S.
Variable the_store : Store S.

Definition host_step (h : HostStep) : M S unit :=
  match h with
  | host_end status =>
      modify (set_res {| headersSent := true; statusCode := status; finished := true |})
  | host_emit sig => res_emit the_store sig
  end.

Fixpoint host_steps (hs : list HostStep) : M S unit :=
  match hs with
  | [] => mret tt
  | h :: hs' => host_step h;; host_steps hs'
  end.

(** A new request starts with a fresh response, no [rateLimit]
    property and no listener; the store keeps its contents. *)
Definition new_request (t : Z) (s : State S) : State S :=
  mkState (contents s) fresh_res None [] false t.

Definition serve (a : Arrival) : M S unit :=
  modify (new_request (at_time a));;
  rateLimit options the_store (request a) (continuation a);;
  host_steps (afterwards a).

(** Requests served one after the other; the events of each. *)
Fixpoint serve_all (arrivals : list Arrival) (s : State S) : list (list Event) :=
  match arrivals with
  | [] => []
  | a :: rest =>
      let r := serve a s in
      events r :: serve_all rest (final r)
  end.

End Host.

(** The state before the first request, for store contents [c]. *)
Definition initial_state {S} (c : S) : State S :=
  mkState c fresh_res None [] false 0.

(** ** Observations on a list of events *)

Definition is_decrement (e : Event) : bool :=
  match e with StoreDecrement _ => true | _ => false end.

Definition is_incr (e : Event) : bool :=
  match e with StoreIncr _ => true | _ => false end.

Definition is_limit_reached (e : Event) : bool :=
  match e with OnLimitReached => true | _ => false end.

Definition is_handler (e : Event) : bool :=
  match e with CallHandler => true | _ => false end.

Definition is_next (e : Event) : bool :=
  match e with CallNext _ => true | _ => false end.

Definition is_set_rateLimit (e : Event) : bool :=
  match e with SetRateLimit _ => true | _ => false end.

Definition count_of (p : Event → bool) (l : list Event) : nat :=
  length (List.filter p l).

(** The values given to a header, in order. *)
Fixpoint header_values (name : string) (l : list Event) : list HeaderValue :=
  match l with
  | [] => []
  | SetHeader n v :: l' =>
      if String.eqb n name then v :: header_values name l' else header_values name l'
  | _ :: l' => header_values name l'
  end.

(** ** The counting store of the specification *)

Record CounterEntry : Type := mkCounterEntry {
  count : Z;
  windowResetAt : Z
}.

(** Modelled from the spec: the module [./memory-store] required on
    line 2 is not among the sources.  Section 4.1 of the specification
    gives the contract of [increment], with an independent window per
    key: it creates the counter at 1 if absent, restarts it at 1 in a
    new window when the window has elapsed, and returns the count with
    the end of the window. *)
Definition memory_incr (windowMs : Z) (key : string) (now : Z)
    (hits : gmap string CounterEntry) : IncrResult * gmap string CounterEntry :=
  let e :=
    match hits !! key with
    | Some e =>
        if now <? windowResetAt e
        then {| count := count e + 1; windowResetAt := windowResetAt e |}
        else {| count := 1; windowResetAt := now + windowMs |}
    | None => {| count := 1; windowResetAt := now + windowMs |}
    end in
  (incr_ok (count e) (Some (windowResetAt e)), <[key := e]> hits).

(** Modelled from the spec: [decrement] of section 4.1 takes one off
    the counter of [key], floored at 0, and does nothing on an unknown
    key. *)
Definition memory_decrement (key : string)
    (hits : gmap string CounterEntry) : gmap string CounterEntry :=
  match hits !! key with
  | Some e =>
      <[key := {| count := Z.max (count e - 1) 0;
                  windowResetAt := windowResetAt e |}]> hits
  | None => hits
  end.

(** Modelled from the spec: [resetKey] of section 4.1 clears the
    counter and the window of [key]. *)
Definition memory_resetKey (key : string)
    (hits : gmap string CounterEntry) : gmap string CounterEntry :=
  delete key hits.

(** Modelled from the spec: the store built by [new MemoryStore(windowMs)],
    with the three methods of the store interface of section 6. *)
Definition MemoryStore (windowMs : Z) : Store (gmap string CounterEntry) :=
  {| incr := Some (memory_incr windowMs);
     resetKey := Some memory_resetKey;
     decrement := Some memory_decrement |}.

(** ** What a counted request emits *)

(** The request is not skipped, its key resolves to [key], and the
    store answers the increment with the count [c] and the reset time
    [rt], its contents becoming [c']. *)
Definition Counted {S} (options : Options S) (the_store : Store S)
    (req : Req) (s : State S) (key : string) (c : Z) (rt : option Z) (c' : S) : Prop :=
  skip options req (res s) = returns false
  ∧ (∃ keyValue, keyGenerator options req (res s) = returns (key_value keyValue)
                 ∧ keyPromise keyValue = fulfilled key)
  ∧ (∃ f, incr the_store = Some f
          ∧ f key (clock s) (contents s) = (incr_ok c rt, c')).

(** The value bound to [max] on line 78: the resolved threshold, or
    what [next] returned when the resolution failed. *)
Definition threshold_seen {S} (options : Options S) (req : Req) (next : Next)
    (rs : Res) : Value :=
  match Promise_resolve (maxResult options req rs) with
  | fulfilled v => v
  | rejected _ => next_returns next
  end.

Definition resolution_events {S} (options : Options S) (req : Req) (rs : Res)
    : list Event :=
  match Promise_resolve (maxResult options req rs) with
  | fulfilled _ => []
  | rejected err => [CallNext (Some err)]
  end.

Definition verdict (max : Value) (c : Z) (rt : option Z) : RateLimitInfo :=
  {| limit := max;
     current := c;
     remaining := Math_max (sub max (number c)) (number 0);
     resetTime := rt |}.

Definition header_events {S} (options : Options S) (rs : Res)
    (info : RateLimitInfo) (now : Z) : list Event :=
  if headers options && negb (headersSent rs) then
    [SetHeader "X-RateLimit-Limit" (hv (limit info));
     SetHeader "X-RateLimit-Remaining" (hv (remaining info))]
    ++ match resetTime info with
       | Some t => [SetHeader "Date" (hv_date now);
                    SetHeader "X-RateLimit-Reset" (hv (number (Math_ceil_div t 1000)))]
       | None => []
       end
  else [].

Definition registered {S} (options : Options S) (key : string)
    : list (Signal * Listener) :=
  (if skipFailedRequests options
   then [(finish, failed_on_finish key); (close, failed_on_close key);
         (error, failed_on_error key)]
   else [])
  ++ (if skipSuccessfulRequests options
      then [(finish, successful_on_finish key)]
      else []).

Definition notification_events (max : Value) (c : Z) : list Event :=
  if truthy max && strict_eq (number c) (add max (number 1))
  then [OnLimitReached] else [].

Definition decision_events {S} (options : Options S) (rs : Res) (max : Value)
    (c : Z) : list Event :=
  if truthy max && gt (number c) max then
    (if headers options && negb (headersSent rs)
     then [SetHeader "Retry-After"
                     (hv (number (Math_ceil_div (windowMs options) 1000)))]
     else [])
    ++ CallHandler
       :: match handler options with
          | default_handler => [ResStatus (optStatusCode options);
                                ResSend (message options)]
          | custom_handler => []
          end
  else [CallNext None].

Definition after_verdict {S} (options : Options S) (rs : Res) (key : string)
    (max : Value) (c : Z) (rt : option Z) (now : Z) : list Event :=
  header_events options rs (verdict max c rt) now
  ++ map (λ p, ResOn p.1 p.2) (registered options key)
  ++ notification_events max c
  ++ decision_events options rs max c.

(** The function of lines 78-151 stops on line 87: headers are to be
    written and the limit to write is [undefined]. *)
Definition aborts {S} (options : Options S) (rs : Res) (max : Value) : bool :=
  headers options && negb (headersSent rs) && is_undefined max.

(** The count and the reset time with which the callback of [incr]
    goes on, if it does: the error it was given, if any, is falsy. *)
Definition delivered (r : IncrResult) : option (Z * option Z) :=
  match r with
  | incr_ok c rt => Some (c, rt)
  | incr_err err c rt => if truthy_error err then None else Some (c, rt)
  end.

(** As [Counted], for every answer of the store on which the callback
    goes on. *)
Definition Proceeds {S} (options : Options S) (the_store : Store S)
    (req : Req) (s : State S) (key : string) (c : Z) (rt : option Z) (c' : S) : Prop :=
  skip options req (res s) = returns false
  ∧ (∃ keyValue, keyGenerator options req (res s) = returns (key_value keyValue)
                 ∧ keyPromise keyValue = fulfilled key)
  ∧ (∃ f r, incr the_store = Some f
            ∧ f key (clock s) (contents s) = (r, c')
            ∧ delivered r = Some (c, rt)).

(** What the function of lines 78-151 emits: the verdict, then either
    the error of line 87, raised in a promise chain that has no
    [catch], or the rest of the function. *)
Definition callback_events {S} (options : Options S) (rs : Res) (key : string)
    (max : Value) (c : Z) (rt : option Z) (now : Z) : list Event :=
  SetRateLimit (verdict max c rt)
  :: (if aborts options rs max
      then [UnhandledRejection (header_error "X-RateLimit-Limit")]
      else after_verdict options rs key max c rt now).

(** The state in which the function of lines 78-151 leaves a request. *)
Definition callback_listeners {S} (options : Options S) (rs : Res) (key : string)
    (max : Value) : list (Signal * Listener) :=
  if aborts options rs max then [] else registered options key.

Definition is_unhandled (e : Event) : bool :=
  match e with UnhandledRejection _ => true | _ => false end.

(** The exceptions that leave [rateLimit]: what [options.skip] throws,
    and on a request that is not skipped what [options.keyGenerator]
    throws or what the [then] of the object it returned leads to. *)
Definition escapes {S} (options : Options S) (req : Req) (rs : Res) (e : Error)
    : Prop :=
  skip options req rs = throws e
  ∨ (skip options req rs = returns false
     ∧ (keyGenerator options req rs = throws e
        ∨ ∃ t, keyGenerator options req rs = returns (key_thenable t)
               ∧ then_error t = e)).

(** [Number.MAX_SAFE_INTEGER] *)
Definition MAX_SAFE_INTEGER : Z := 2 ^ 53 - 1.

(** ** Runs of several requests, the latch, the fixtures *)

(** The request of an arrival is not skipped, is attributed to [key]
    and has the threshold [T]. *)
Definition Attributed {S} (options : Options S) (key : string) (T : Z)
    (a : Arrival) : Prop :=
  skip options (request a) fresh_res = returns false
  ∧ (∃ keyValue, keyGenerator options (request a) fresh_res
                 = returns (key_value keyValue)
                 ∧ keyPromise keyValue = fulfilled key)
  ∧ Promise_resolve (maxResult options (request a) fresh_res)
    = fulfilled (number T).

(** The values assigned to [req.rateLimit], in order. *)
Definition attached (evs : list Event) : list RateLimitInfo :=
  flat_map (λ e, match e with SetRateLimit i => [i] | _ => [] end) evs.

(** The listeners that go through [decrementKey]. *)
Definition latched (l : Listener) : bool :=
  match l with
  | successful_on_finish _ => false
  | _ => true
  end.

(** The decrements the latch still allows. *)
Definition budget {S} (s : State S) : nat :=
  if decremented s then 0%nat else 1%nat.

Definition all_latched {S} (s : State S) : Prop :=
  Forall (λ p : Signal * Listener, latched p.2 = true) (listeners s).

(** A computation that, started with latched listeners only, leaves the
    listeners as they are and spends at most what the latch allows. *)
Definition Latched {S A} (m : M S A) : Prop :=
  ∀ s, all_latched s →
       listeners (final (m s)) = listeners s
       ∧ (count_of is_decrement (events (m s)) + budget (final (m s))
          ≤ budget s)%nat.

(** The retry-after guidance in the words of section 4.4 of the
    specification, for comparison with line 144: the remaining duration
    of the window, rounded up to whole seconds; [resetTime] is the end
    of the window and [now] the clock. *)
Definition spec_retry_after (resetTime now : Z) : Z :=
  Math_ceil_div (resetTime - now) 1000.

(** *** Fixtures of the concrete runs *)

Abbreviation Hits := (gmap string CounterEntry).

Definition client : Req := mkReq "10.0.0.1".

Definition express_next : Next := mkNext undefined.

Definition one_hit (n reset : Z) : Hits :=
  {[ "10.0.0.1" := {| count := n; windowResetAt := reset |} ]}.

Definition arrival (t : Z) (hs : list HostStep) : Arrival :=
  mkArrival t client express_next hs.

Definition store_without_decrement : Store Hits :=
  mkStore (Some (memory_incr 60000)) (Some memory_resetKey) None.

(** The options of the concrete runs: what the application passes is
    merged into the defaults. *)
Definition with_options (source : list (Property Hits)) : Options Hits :=
  Object_assign defaults source.

(** The store when the window is about to end: five hits, one second
    left. *)
Definition late_in_window : State Hits :=
  mkState (one_hit 5 60000) fresh_res None [] false 59000.

(** ** Further observations and fixtures *)

Definition is_set_header (e : Event) : bool :=
  match e with SetHeader _ _ => true | _ => false end.

Definition is_res_on (e : Event) : bool :=
  match e with ResOn _ _ => true | _ => false end.

Definition is_reset_key (e : Event) : bool :=
  match e with StoreResetKey _ => true | _ => false end.


(** [options.store] after line 32. *)
Definition store_in_use {S} (MemoryStore : Z → Store S) (options : Options S)
    : Store S :=
  match store options with
  | Some st => st
  | None => MemoryStore (windowMs options)
  end.

(** The condition under which the guard of lines 35-42 lets a store
    through. *)
Definition store_accepted {S} (options : Options S) (st : Store S) : Prop :=
  is_function (incr st) = true
  ∧ is_function (resetKey st) = true
  ∧ (skipFailedRequests options = true → is_function (decrement st) = true).

(** A computation that, started with latched listeners only, returns
    normally and leaves the listeners as they are. *)
Definition Quiet {S A} (m : M S A) : Prop :=
  ∀ s, all_latched s →
       listeners (final (m s)) = listeners s
       ∧ ∃ a, result (m s) = Ok a.

(** The host only emits [finish] and [close]. *)
Definition finish_or_close (h : HostStep) : Prop :=
  h = host_emit finish ∨ h = host_emit close.

(** A store whose [incr] reports an error. *)
Definition failing_store : Store Hits :=
  mkStore (Some (λ _ _ hits, (incr_err "store unavailable" 0 None, hits)))
          (Some memory_resetKey) (Some memory_decrement).

(** The calls that reach the store or assign [req.rateLimit]. *)
Definition is_store_call (e : Event) : bool :=
  match e with
  | StoreIncr _ | StoreDecrement _ | StoreResetKey _ => true
  | _ => false
  end.

(** The property is a [keyGenerator]. *)
Definition sets_keyGenerator {S} (p : Property S) : bool :=
  match p with p_keyGenerator _ => true | _ => false end.

(** A store with the three methods. *)
Definition full_store {S} (st : Store S) : Prop :=
  is_function (incr st) = true
  ∧ is_function (resetKey st) = true
  ∧ is_function (decrement st) = true.

(** The response after the default handler answered (lines 23-25). *)
Definition answered {S} (options : Options S) : Res :=
  {| headersSent := true; statusCode := optStatusCode options; finished := true |}.

(** The response fields at the end of the function of lines 78-151. *)
Definition res_after {S} (options : Options S) (rs : Res) (max : Value) (c : Z)
    : Res :=
  if truthy max && gt (number c) max then
    match handler options with
    | default_handler => answered options
    | custom_handler => rs
    end
  else rs.

(** The host only emits [close] and [error]. *)
Definition close_or_error (h : HostStep) : Prop :=
  h = host_emit close ∨ h = host_emit error.

(** A response that fails, and one that succeeds. *)
Definition failing_response : Arrival :=
  arrival 0 [host_end 500; host_emit finish; host_emit close; host_emit error].

Definition successful_response : Arrival :=
  arrival 0 [host_end 200; host_emit finish; host_emit close].

(** A sixth hit, one second before the window ends. *)
Definition late_hit : Arrival :=
  arrival 59000 [host_emit finish; host_emit close].

(** * Properties *)

(** Unfolding of the monad's operations on a given state. *)
Ltac run_M :=
  repeat (progress (
    unfold mbind, mret, M_bind, M_ret, emit, gets, modify, when, raise,
      try_catch, detached, setHeader, res_on, call_next, call_handler,
      result, events, final in *;
    cbn in *)).

(** Case analysis on the integer comparisons of the goal. *)
Ltac Z_cases :=
  repeat match goal with
         | |- context [?a <? ?b] => destruct (Z.ltb_spec a b)
         | |- context [?a <=? ?b] => destruct (Z.leb_spec a b)
         | |- context [?a =? ?b] => destruct (Z.eqb_spec a b)
         end;
  cbn [andb orb negb]; try reflexivity; try lia.

(** ** Execution of a counted request *)

Section Execution.
Context {S : Type}.
Variable options : Options S.
Variable the_store : Store S.

Lemma setHeader_defined name v :
  is_undefined v = false →
  setHeader name (hv v) = (emit (SetHeader name (hv v)) : M S unit).
Proof. by destruct v. Qed.

Lemma Math_max_defined a b : is_undefined (Math_max a b) = false.
Proof. unfold Math_max. by destruct (ToNumber a), (ToNumber b). Qed.

(** The function of lines 78-151 on a given [max], when line 87 does
    not throw. *)
Lemma then_max_run next key c rt max (s : State S) :
  aborts options (res s) max = false →
  then_max options next key c rt max s
  = (Ok tt,
     (then_max options next key c rt max s).1.2,
     SetRateLimit (verdict max c rt)
     :: after_verdict options (res s) key max c rt (clock s))
  ∧ let s' := final (then_max options next key c rt max s) in
    rateLimitInfo s' = Some (verdict max c rt)
    ∧ contents s' = contents s
    ∧ listeners s' = listeners s ++ registered options key
    ∧ clock s' = clock s.
Proof.
  destruct s as [cn [hs sc fin] rli ls d ck].
  unfold aborts, then_max, after_verdict, header_events, registered,
    notification_events, decision_events, call_handler.
  cbn [res headersSent]. cbv zeta. cbn [remaining].
  rewrite (setHeader_defined "X-RateLimit-Remaining" _ (Math_max_defined _ _)).
  destruct (headers options), hs; cbn [andb negb]; intros Hab;
    rewrite ?(setHeader_defined "X-RateLimit-Limit" max Hab);
    destruct (truthy max && strict_eq (number c) (add max (number 1))),
      (truthy max && gt (number c) max), rt,
      (skipFailedRequests options), (skipSuccessfulRequests options),
      (handler options);
    lazy -[app Math_ceil_div Math_max sub verdict];
    cbn [app]; rewrite ?app_nil_r, <- ?app_assoc; repeat split; reflexivity.
Qed.

(** The same function when line 87 throws. *)
Lemma then_max_aborted next key c rt max (s : State S) :
  aborts options (res s) max = true →
  then_max options next key c rt max s
  = (Raise (header_error "X-RateLimit-Limit"),
     set_rateLimitInfo (verdict max c rt) s,
     [SetRateLimit (verdict max c rt)]).
Proof.
  destruct s as [cn [hs sc fin] rli ls d ck].
  unfold aborts, then_max. cbn [res headersSent].
  destruct (headers options), hs, max; try discriminate; intros _.
  reflexivity.
Qed.

(** Lines 71-151: the resolution of the threshold and the function of
    lines 78-151 on what it gave. *)
Lemma resolve_and_decide_run req next key c rt (s : State S) :
  let max := threshold_seen options req next (res s) in
  let r := resolve_and_decide options req next key c rt s in
  result r = Ok tt
  ∧ events r = resolution_events options req (res s)
               ++ callback_events options (res s) key max c rt (clock s)
  ∧ rateLimitInfo (final r) = Some (verdict max c rt)
  ∧ contents (final r) = contents s
  ∧ listeners (final r)
    = listeners s ++ callback_listeners options (res s) key max
  ∧ clock (final r) = clock s
  ∧ (aborts options (res s) max = true →
     final r = set_rateLimitInfo (verdict max c rt) s).
Proof.
  intros max r. subst max r.
  unfold threshold_seen, resolution_events, callback_events, callback_listeners.
  destruct (Promise_resolve (maxResult options req (res s))) as [v|e] eqn:E.
  - destruct (aborts options (res s) v) eqn:Hab.
    + pose proof (then_max_aborted next key c rt v s Hab) as Ht.
      unfold resolve_and_decide. run_M. rewrite E. run_M. rewrite Ht.
      cbn. rewrite app_nil_r. auto 10.
    + destruct (then_max_run next key c rt v s Hab) as (Ht & H).
      unfold resolve_and_decide. run_M. rewrite E. run_M. rewrite Ht.
      cbn. repeat split; try apply H. discriminate.
  - destruct (aborts options (res s) (next_returns next)) eqn:Hab.
    + pose proof (then_max_aborted next key c rt (next_returns next) s Hab) as Ht.
      unfold resolve_and_decide. run_M. rewrite E. run_M. rewrite Ht.
      cbn. rewrite app_nil_r. auto 10.
    + destruct (then_max_run next key c rt (next_returns next) s Hab) as (Ht & H).
      unfold resolve_and_decide. run_M. rewrite E. run_M. rewrite Ht.
      cbn. repeat split; try apply H. discriminate.
Qed.

(** The callback of [incr], when the store answered with a count or
    with an error that is falsy. *)
Lemma incr_callback_delivered req next key r c rt (s : State S) :
  delivered r = Some (c, rt) →
  incr_callback options req next key r s
  = resolve_and_decide options req next key c rt s.
Proof.
  destruct r as [err c0 rt0|c0 rt0]; cbn.
  - destruct (truthy_error err); [discriminate|]. by intros [= -> ->].
  - by intros [= -> ->].
Qed.

(** A request on which the callback goes on: the increment, then lines
    71-151. *)
Lemma rateLimit_proceeds req next key c rt c' (s : State S) :
  Proceeds options the_store req s key c rt c' →
  let max := threshold_seen options req next (res s) in
  let r := rateLimit options the_store req next s in
  result r = Ok tt
  ∧ events r = StoreIncr key
               :: resolution_events options req (res s)
               ++ callback_events options (res s) key max c rt (clock s)
  ∧ rateLimitInfo (final r) = Some (verdict max c rt)
  ∧ contents (final r) = c'
  ∧ listeners (final r)
    = listeners s ++ callback_listeners options (res s) key max
  ∧ clock (final r) = clock s
  ∧ (aborts options (res s) max = true →
     final r = set_rateLimitInfo (verdict max c rt) (set_contents c' s)).
Proof.
  intros (Hskip & (kv & Hkg & Hkp) & (f & a & Hf & Hincr & Hd)) max r.
  subst max r.
  pose proof (resolve_and_decide_run req next key c rt (set_contents c' s)) as H.
  pose proof (incr_callback_delivered req next key a c rt (set_contents c' s) Hd)
    as Hcb.
  destruct (resolve_and_decide options req next key c rt (set_contents c' s))
    as [[r1 s1] l1] eqn:Er.
  unfold rateLimit, store_incr. run_M.
  rewrite Hskip, Hkg, Hkp, Hf. run_M. rewrite Hincr. run_M. rewrite Hcb.
  run_M. destruct H as (-> & -> & H). auto.
Qed.

Lemma Counted_Proceeds req key c rt c' (s : State S) :
  Counted options the_store req s key c rt c' →
  Proceeds options the_store req s key c rt c'.
Proof.
  intros (Hskip & Hkey & (f & Hf & Hincr)).
  split; [done|]. split; [done|]. by exists f, (incr_ok c rt).
Qed.

(** A counted request: the increment, then the callback. *)
Lemma rateLimit_counted req next key c rt c' (s : State S) :
  Counted options the_store req s key c rt c' →
  let max := threshold_seen options req next (res s) in
  aborts options (res s) max = false →
  let r := rateLimit options the_store req next s in
  result r = Ok tt
  ∧ events r = StoreIncr key
               :: resolution_events options req (res s)
               ++ SetRateLimit (verdict max c rt)
                  :: after_verdict options (res s) key max c rt (clock s)
  ∧ rateLimitInfo (final r) = Some (verdict max c rt)
  ∧ contents (final r) = c'
  ∧ listeners (final r) = listeners s ++ registered options key
  ∧ clock (final r) = clock s.
Proof.
  intros Hc max Hab r. subst r.
  destruct (rateLimit_proceeds req next key c rt c' s (Counted_Proceeds _ _ _ _ _ _ Hc))
    as (Hr & He & Hi & Hcn & Hl & Hck & _).
  unfold callback_events, callback_listeners in *. fold max in He, Hi, Hl.
  rewrite Hab in *. auto 10.
Qed.

(** A counted request on which line 87 throws: the verdict is attached
    and the run stops there. *)
Lemma rateLimit_counted_aborted req next key c rt c' (s : State S) :
  Counted options the_store req s key c rt c' →
  let max := threshold_seen options req next (res s) in
  aborts options (res s) max = true →
  rateLimit options the_store req next s
  = (Ok tt, set_rateLimitInfo (verdict max c rt) (set_contents c' s),
     StoreIncr key
     :: resolution_events options req (res s)
     ++ [SetRateLimit (verdict max c rt);
         UnhandledRejection (header_error "X-RateLimit-Limit")]).
Proof.
  intros Hc max Hab.
  destruct (rateLimit_proceeds req next key c rt c' s (Counted_Proceeds _ _ _ _ _ _ Hc))
    as (Hr & He & _ & _ & _ & _ & Hfin).
  unfold callback_events in He. fold max in He, Hfin. rewrite Hab in He.
  specialize (Hfin Hab). unfold result, events, final in *.
  destruct (rateLimit options the_store req next s) as [[r1 s1] l1].
  cbn in *. by subst.
Qed.

(** A threshold that is a number lets line 87 through. *)
Lemma number_threshold_never_aborts req next rs T :
  Promise_resolve (maxResult options req rs) = fulfilled (number T) →
  threshold_seen options req next rs = number T
  ∧ resolution_events options req rs = []
  ∧ aborts options rs (threshold_seen options req next rs) = false.
Proof.
  intros H. unfold threshold_seen, resolution_events, aborts. rewrite H.
  repeat split. by rewrite andb_false_r.
Qed.

End Execution.

(** ** The paths of [rateLimit] *)

Section Paths.
Context {S : Type}.
Variable options : Options S.
Variable the_store : Store S.

Lemma rateLimit_skip_thrown req next (s : State S) e :
  skip options req (res s) = throws e →
  rateLimit options the_store req next s = (Raise e, s, []).
Proof. intros Hskip. unfold rateLimit. run_M. rewrite Hskip. reflexivity. Qed.

Lemma rateLimit_skipped req next (s : State S) :
  skip options req (res s) = returns true →
  rateLimit options the_store req next s = (Ok tt, s, [CallNext None]).
Proof. intros Hskip. unfold rateLimit. run_M. rewrite Hskip. reflexivity. Qed.

Lemma rateLimit_key_thrown req next (s : State S) e :
  skip options req (res s) = returns false →
  keyGenerator options req (res s) = throws e →
  rateLimit options the_store req next s = (Raise e, s, []).
Proof.
  intros Hskip Hkg. unfold rateLimit. run_M. rewrite Hskip, Hkg. reflexivity.
Qed.

Lemma rateLimit_key_foreign req next (s : State S) t :
  skip options req (res s) = returns false →
  keyGenerator options req (res s) = returns (key_thenable t) →
  rateLimit options the_store req next s = (Raise (then_error t), s, []).
Proof.
  intros Hskip Hkg. unfold rateLimit. run_M. rewrite Hskip, Hkg. reflexivity.
Qed.

Lemma rateLimit_key_rejected req next (s : State S) kv e :
  skip options req (res s) = returns false →
  keyGenerator options req (res s) = returns (key_value kv) →
  keyPromise kv = rejected e →
  rateLimit options the_store req next s = (Ok tt, s, [CallNext (Some e)]).
Proof.
  intros Hskip Hkg Hkp. unfold rateLimit. run_M. rewrite Hskip, Hkg, Hkp.
  reflexivity.
Qed.

Lemma rateLimit_incr_missing req next (s : State S) kv key :
  skip options req (res s) = returns false →
  keyGenerator options req (res s) = returns (key_value kv) →
  keyPromise kv = fulfilled key →
  incr the_store = None →
  rateLimit options the_store req next s
  = (Ok tt, s, [CallNext (Some (TypeError "incr"))]).
Proof.
  intros Hskip Hkg Hkp Hf. unfold rateLimit, store_incr. run_M.
  rewrite Hskip, Hkg, Hkp, Hf. reflexivity.
Qed.

Lemma rateLimit_store_error req next (s : State S) kv key f err c0 rt0 c' :
  skip options req (res s) = returns false →
  keyGenerator options req (res s) = returns (key_value kv) →
  keyPromise kv = fulfilled key →
  incr the_store = Some f →
  f key (clock s) (contents s) = (incr_err err c0 rt0, c') →
  truthy_error err = true →
  rateLimit options the_store req next s
  = (Ok tt, set_contents c' s, [StoreIncr key; CallNext (Some err)]).
Proof.
  intros Hskip Hkg Hkp Hf Hincr Herr. unfold rateLimit, store_incr. run_M.
  rewrite Hskip, Hkg, Hkp, Hf. run_M. rewrite Hincr. run_M. rewrite Herr.
  reflexivity.
Qed.

(** A request that is not skipped and whose key resolved, with a store
    that has [incr]: either the store reports a truthy error, or the
    callback goes on. *)
Lemma rateLimit_keyed req next (s : State S) kv key f :
  skip options req (res s) = returns false →
  keyGenerator options req (res s) = returns (key_value kv) →
  keyPromise kv = fulfilled key →
  incr the_store = Some f →
  (∃ e c', rateLimit options the_store req next s
           = (Ok tt, set_contents c' s, [StoreIncr key; CallNext (Some e)]))
  ∨ (∃ c rt c', Proceeds options the_store req s key c rt c').
Proof.
  intros Hskip Hkg Hkp Hf.
  destruct (f key (clock s) (contents s)) as [a c'] eqn:Ef.
  destruct (delivered a) as [[c rt]|] eqn:Hd.
  - right. exists c, rt, c'. split; [done|]. split; [by exists kv|].
    by exists f, a.
  - left. destruct a as [err c0 rt0|]; [|discriminate]. cbn in Hd.
    destruct (truthy_error err) eqn:Herr; [|discriminate].
    exists err, c'. by eapply rateLimit_store_error.
Qed.

(** Every run of [rateLimit] is one of five. *)
Lemma rateLimit_paths req next (s : State S) :
  let r := rateLimit options the_store req next s in
  r = (Ok tt, s, [CallNext None])
  ∨ (∃ e, escapes options req (res s) e ∧ r = (Raise e, s, []))
  ∨ (∃ e, r = (Ok tt, s, [CallNext (Some e)]))
  ∨ (∃ key e c', r = (Ok tt, set_contents c' s,
                      [StoreIncr key; CallNext (Some e)]))
  ∨ (∃ key c rt c', Proceeds options the_store req s key c rt c').
Proof.
  intros r. subst r. unfold escapes.
  destruct (skip options req (res s)) as [[]|e] eqn:Hskip.
  { left. by apply rateLimit_skipped. }
  2:{ right; left. exists e. split; [by left|]. by apply rateLimit_skip_thrown. }
  destruct (keyGenerator options req (res s)) as [[kv|t]|e] eqn:Hkg.
  3:{ right; left. exists e. split; [right; eauto|].
      by apply rateLimit_key_thrown. }
  2:{ right; left. exists (then_error t). split; [right; eauto|].
      by apply rateLimit_key_foreign. }
  destruct (keyPromise kv) as [key|e] eqn:Hkp.
  2:{ right; right; left. exists e. by eapply rateLimit_key_rejected. }
  destruct (incr the_store) as [f|] eqn:Hf.
  2:{ right; right; left. eexists. by eapply rateLimit_incr_missing. }
  destruct (rateLimit_keyed req next s kv key f Hskip Hkg Hkp Hf)
    as [(e & c' & Hr) | (c & rt & c' & Hp)].
  - right; right; right; left. by exists key, e, c'.
  - right; right; right; right. by exists key, c, rt, c'.
Qed.

End Paths.
(** ** Counting events *)

Lemma count_of_app p (l1 l2 : list Event) :
  count_of p (l1 ++ l2) = (count_of p l1 + count_of p l2)%nat.
Proof. unfold count_of. by rewrite List.filter_app, length_app. Qed.

Lemma count_of_cons p e (l : list Event) :
  count_of p (e :: l) = ((if p e then 1 else 0) + count_of p l)%nat.
Proof. unfold count_of. cbn. by destruct (p e). Qed.

(** Integers up to 2^53 in absolute value are doubles. *)
Lemma to_double_safe z : Z.abs z ≤ 2 ^ 53 → to_double z = z.
Proof. intros H. unfold to_double. by destruct (Z.leb_spec (Z.abs z) (2 ^ 53)); [|lia]. Qed.

(** With a positive threshold the two guards of lines 136 and 140 are
    the comparisons of the count with it; for the first one the
    threshold has to be a safe integer, for [max + 1] to be exact. *)
Lemma edge_guard_positive T c :
  0 < T → T ≤ MAX_SAFE_INTEGER →
  truthy (number T) && strict_eq (number c) (add (number T) (number 1))
  = (c =? T + 1).
Proof.
  intros H Hsafe. unfold MAX_SAFE_INTEGER in Hsafe. cbn.
  rewrite to_double_safe by lia.
  destruct (Z.eqb_spec T 0); [lia | done].
Qed.

Lemma over_guard_positive T c :
  0 < T → truthy (number T) && gt (number c) (number T) = (T <? c).
Proof. intros H. cbn. destruct (Z.eqb_spec T 0); [lia | done]. Qed.


Lemma count_of_none p (l : list Event) :
  Forall (λ e, p e = false) l → count_of p l = 0%nat.
Proof.
  induction 1 as [|e l He _ IH]; [reflexivity|].
  rewrite count_of_cons, He, IH. reflexivity.
Qed.

Lemma count_of_concat p (ls : list (list Event)) :
  count_of p (concat ls) = sum_list (map (count_of p) ls).
Proof.
  induction ls as [|l ls IH]; [reflexivity|].
  change (concat (l :: ls)) with (l ++ concat ls).
  rewrite count_of_app, IH. reflexivity.
Qed.

Lemma Counted_intro {S} (options : Options S) (the_store : Store S) req s key
    c rt c' keyValue f :
  skip options req (res s) = returns false →
  keyGenerator options req (res s) = returns (key_value keyValue) →
  keyPromise keyValue = fulfilled key →
  incr the_store = Some f →
  f key (clock s) (contents s) = (incr_ok c rt, c') →
  Counted options the_store req s key c rt c'.
Proof. intros. split; [done|]. split; eauto. Defined.

Lemma after_verdict_no_verdict {S} (options : Options S) rs key max c rt now :
  Forall (λ e, is_set_rateLimit e = false)
         (after_verdict options rs key max c rt now).
Proof.
  unfold after_verdict, header_events, registered, notification_events,
    decision_events.
  destruct (headers options), (headersSent rs), rt,
    (skipFailedRequests options), (skipSuccessfulRequests options),
    (truthy max && strict_eq (number c) (add max (number 1))),
    (truthy max && gt (number c) max), (handler options);
    cbn; repeat constructor.
Qed.

Lemma after_verdict_no_decrement {S} (options : Options S) rs key max c rt now :
  Forall (λ e, is_decrement e = false)
         (after_verdict options rs key max c rt now).
Proof.
  unfold after_verdict, header_events, registered, notification_events,
    decision_events.
  destruct (headers options), (headersSent rs), rt,
    (skipFailedRequests options), (skipSuccessfulRequests options),
    (truthy max && strict_eq (number c) (add max (number 1))),
    (truthy max && gt (number c) max), (handler options);
    cbn; repeat constructor.
Qed.

(** What follows the verdict satisfies [p] nowhere, if the rest of the
    function does not and the unhandled rejection does not. *)
Lemma callback_events_tail {S} (options : Options S) rs key max c rt now
    (p : Event → bool) :
  (∀ e, p (UnhandledRejection e) = false) →
  Forall (λ e, p e = false) (after_verdict options rs key max c rt now) →
  Forall (λ e, p e = false)
         (tail (callback_events options rs key max c rt now)).
Proof.
  intros Hu Ha. unfold callback_events. cbn [tail].
  destruct (aborts options rs max); [|exact Ha].
  constructor; [apply Hu | constructor].
Qed.

Lemma resolution_events_next {S} (options : Options S) req rs e :
  In e (resolution_events options req rs) → ∃ err, e = CallNext (Some err).
Proof.
  unfold resolution_events.
  destruct (Promise_resolve (maxResult options req rs)) as [v|err]; [done|].
  intros [<-|[]]. by exists err.
Qed.

(** ** The admission decision *)

(** C1.  A request that is not skipped and whose increment succeeded,
    with a positive threshold [T]: when the count returned by the store
    is at most [T] the middleware ends by calling [next()] and the
    handler is not invoked; when the count is above [T] the handler is
    invoked once and the middleware does not call [next]. *)
Theorem C1_allow_within_threshold_block_above
    {S} (options : Options S) (the_store : Store S) req next (s : State S)
    key c rt c' T :
  0 < T →
  Counted options the_store req s key c rt c' →
  Promise_resolve (maxResult options req (res s)) = fulfilled (number T) →
  let evs := events (rateLimit options the_store req next s) in
  (c ≤ T → last evs = Some (CallNext None)
            ∧ count_of is_next evs = 1%nat
            ∧ count_of is_handler evs = 0%nat)
  ∧ (T < c → count_of is_handler evs = 1%nat
            ∧ count_of is_next evs = 0%nat).
Proof.
  intros HT Hc Hmax evs. subst evs.
  destruct (number_threshold_never_aborts options req next (res s) T Hmax)
    as (Hth & Hre & Hab).
  destruct (rateLimit_counted options the_store req next key c rt c' s Hc Hab)
    as (_ & -> & _).
  rewrite Hth, Hre. cbn [app].
  unfold after_verdict, header_events, registered, notification_events,
    decision_events.
  rewrite (over_guard_positive T c HT).
  split; intros Hle.
  - destruct (Z.ltb_spec T c); [lia|].
    destruct (headers options), (headersSent (res s)), rt,
      (skipFailedRequests options), (skipSuccessfulRequests options),
      (truthy (number T) && strict_eq (number c) (add (number T) (number 1)));
      cbn; auto.
  - destruct (Z.ltb_spec T c); [|lia].
    destruct (headers options), (headersSent (res s)), rt,
      (skipFailedRequests options), (skipSuccessfulRequests options),
      (truthy (number T) && strict_eq (number c) (add (number T) (number 1))),
      (handler options); cbn; auto.
Qed.

(** The first request of a client under the default options. *)
Lemma C1_first_request_allowed :
  0 < 5
  ∧ Counted (with_options []) (MemoryStore 60000) client (initial_state ∅)
            "10.0.0.1" 1 (Some 60000) (one_hit 1 60000)
  ∧ (let evs := events (rateLimit (with_options []) (MemoryStore 60000)
                                  client express_next (initial_state ∅)) in
     (1 ≤ 5 → last evs = Some (CallNext None)
               ∧ count_of is_next evs = 1%nat
               ∧ count_of is_handler evs = 0%nat)
     ∧ (5 < 1 → count_of is_handler evs = 1%nat
               ∧ count_of is_next evs = 0%nat)).
Proof.
  assert (Counted (with_options []) (MemoryStore 60000) client (initial_state ∅)
                  "10.0.0.1" 1 (Some 60000) (one_hit 1 60000)) as Hc
    by (eapply Counted_intro; reflexivity).
  split; [lia|]. split; [exact Hc|].
  apply (C1_allow_within_threshold_block_above
           (with_options []) (MemoryStore 60000) client express_next
           (initial_state ∅) "10.0.0.1" 1 (Some 60000) (one_hit 1 60000) 5).
  - lia.
  - exact Hc.
  - reflexivity.
Defined.

(** ** The verdict *)








(** C10.  A request that is not skipped, whose increment succeeded and
    whose threshold resolved to [max]: the object of lines 79-84 is
    assigned to [req.rateLimit] right after the increment, before every
    other call of the run (headers, listeners, notification, handler or
    [next]), it is assigned once, and it is still there at the end.
    The run then ends with one call of the handler or of [next]; when
    line 87 throws it ends with neither. *)
Theorem C10_verdict_attached_before_headers_and_decision
    {S} (options : Options S) (the_store : Store S) req next (s : State S)
    key c rt c' max :
  Counted options the_store req s key c rt c' →
  Promise_resolve (maxResult options req (res s)) = fulfilled max →
  let r := rateLimit options the_store req next s in
  let info := {| limit := max;
                 current := c;
                 remaining := Math_max (sub max (number c)) (number 0);
                 resetTime := rt |} in
  rateLimitInfo (final r) = Some info
  ∧ ∃ later, events r = StoreIncr key :: SetRateLimit info :: later
             ∧ count_of is_set_rateLimit later = 0%nat
             ∧ (count_of is_next later + count_of is_handler later
                = if aborts options (res s) max then 0 else 1)%nat.
Proof.
  intros Hc Hmax r info. subst r info.
  destruct (rateLimit_proceeds options the_store req next key c rt c' s
              (Counted_Proceeds _ _ _ _ _ _ _ _ Hc)) as (_ & -> & -> & _).
  unfold threshold_seen, resolution_events. rewrite Hmax. cbn [app].
  split; [reflexivity|]. eexists. split; [reflexivity|]. split.
  - apply count_of_none.
    apply (callback_events_tail options (res s) key max c rt (clock s)
             is_set_rateLimit (λ _, eq_refl)), after_verdict_no_verdict.
  - destruct (aborts options (res s) max); [reflexivity|].
    unfold after_verdict, header_events, registered, notification_events,
      decision_events.
    destruct (headers options), (headersSent (res s)), rt,
      (skipFailedRequests options), (skipSuccessfulRequests options),
      (truthy max && strict_eq (number c) (add max (number 1))),
      (truthy max && gt (number c) max), (handler options);
      reflexivity.
Qed.

(** A blocked request with header emission disabled still carries its
    verdict. *)
Lemma C10_blocked_without_headers_has_verdict :
  Counted (with_options [p_headers false]) (MemoryStore 60000) client
          late_in_window "10.0.0.1" 6 (Some 60000) (one_hit 6 60000)
  ∧ (let r := rateLimit (with_options [p_headers false]) (MemoryStore 60000)
                        client express_next late_in_window in
     let info := {| limit := number 5;
                    current := 6;
                    remaining := Math_max (sub (number 5) (number 6)) (number 0);
                    resetTime := Some 60000 |} in
     rateLimitInfo (final r) = Some info
     ∧ ∃ later, events r = StoreIncr "10.0.0.1" :: SetRateLimit info :: later
                ∧ count_of is_set_rateLimit later = 0%nat
                ∧ (count_of is_next later + count_of is_handler later = 1)%nat).
Proof.
  assert (Counted (with_options [p_headers false]) (MemoryStore 60000) client
                  late_in_window "10.0.0.1" 6 (Some 60000) (one_hit 6 60000))
    as Hc by (eapply Counted_intro; reflexivity).
  split; [exact Hc|].
  apply (C10_verdict_attached_before_headers_and_decision
           (with_options [p_headers false]) (MemoryStore 60000) client
           express_next late_in_window "10.0.0.1" 6 (Some 60000)
           (one_hit 6 60000) (number 5)).
  - exact Hc.
  - reflexivity.
Defined.

(** ** Failures of the key resolver *)

(** C9.  When the key resolver fails on a request that is not skipped,
    the store is not asked to increment and its contents are unchanged.
    A rejected promise is handed to [next(err)], the only call of the
    run.  A throw of [keyGenerator] leaves [rateLimit] as an exception
    to its caller, and the middleware calls nothing. *)
Theorem C9_key_failure_counts_nothing
    {S} (options : Options S) (the_store : Store S) req next (s : State S) err :
  skip options req (res s) = returns false →
  (keyGenerator options req (res s) = throws err
   ∨ ∃ keyValue, keyGenerator options req (res s) = returns (key_value keyValue)
                 ∧ keyPromise keyValue = rejected err) →
  let r := rateLimit options the_store req next s in
  count_of is_incr (events r) = 0%nat
  ∧ contents (final r) = contents s
  ∧ ((∃ keyValue, keyGenerator options req (res s) = returns keyValue) →
     events r = [CallNext (Some err)] ∧ result r = Ok tt)
  ∧ (keyGenerator options req (res s) = throws err →
     events r = [] ∧ result r = Raise err).
Proof.
  intros Hskip [Hkg | (kv & Hkg & Hkp)] r; subst r;
    unfold rateLimit; run_M; rewrite Hskip, Hkg; run_M.
  - split; [reflexivity|]. split; [reflexivity|]. split.
    + intros [kv Hkv]. discriminate.
    + auto.
  - rewrite Hkp. run_M.
    split; [reflexivity|]. split; [reflexivity|]. split.
    + auto.
    + intros; discriminate.
Qed.

(** A key generator that throws: [next(err)] is not called, the
    exception leaves the middleware. *)
Lemma C9_thrown_key_error_is_not_passed_to_next :
  let options := with_options [p_keyGenerator (λ _ _, throws "no identity")] in
  let r := rateLimit options (MemoryStore 60000) client express_next
                     (initial_state ∅) in
  keyGenerator options client fresh_res = throws "no identity"
  ∧ ¬ In (CallNext (Some "no identity")) (events r)
  ∧ count_of is_next (events r) = 0%nat
  ∧ result r = Raise "no identity".
Proof. vm_compute. repeat split; try reflexivity. tauto. Qed.

(** A key generator whose promise is rejected. *)
Lemma C9_rejected_key_goes_to_next :
  let options :=
    with_options [p_keyGenerator
                    (λ _ _, returns (key_value (promise (rejected "lookup failed"))))] in
  skip options client (res (initial_state (∅ : Hits))) = returns false
  ∧ (let r := rateLimit options (MemoryStore 60000) client express_next
                        (initial_state ∅) in
     count_of is_incr (events r) = 0%nat
     ∧ contents (final r) = ∅
     ∧ events r = [CallNext (Some "lookup failed")]
     ∧ result r = Ok tt).
Proof.
  intros options. split; [reflexivity|].
  destruct (C9_key_failure_counts_nothing
              options (MemoryStore 60000) client express_next (initial_state ∅)
              "lookup failed" eq_refl
              (or_intror (ex_intro _ (promise (rejected "lookup failed"))
                                   (conj eq_refl eq_refl))))
    as (Hincr & Hcont & Hrej & _).
  destruct (Hrej (ex_intro _ (key_value (promise (rejected "lookup failed")))
                           eq_refl))
    as [Hev Hres].
  split; [exact Hincr|]. split; [exact Hcont|]. split; [exact Hev | exact Hres].
Defined.

(** ** Retry-After *)

(** C7.  A blocked request (positive threshold [T], count above [T])
    with headers enabled and not yet sent: Retry-After is set once, to
    the length of the window [windowMs] rounded up to whole seconds. *)
Theorem C7_retry_after_is_window_length
    {S} (options : Options S) (the_store : Store S) req next (s : State S)
    key c rt c' T :
  0 < T → T < c →
  Counted options the_store req s key c rt c' →
  Promise_resolve (maxResult options req (res s)) = fulfilled (number T) →
  headers options = true → headersSent (res s) = false →
  let secs := Math_ceil_div (windowMs options) 1000 in
  header_values "Retry-After" (events (rateLimit options the_store req next s))
  = [hv (number secs)]
  ∧ windowMs options ≤ 1000 * secs < windowMs options + 1000.
Proof.
  intros HT Hover Hc Hmax Hh Hsent secs. subst secs.
  destruct (number_threshold_never_aborts options req next (res s) T Hmax)
    as (Hth & Hre & Hab).
  destruct (rateLimit_counted options the_store req next key c rt c' s Hc Hab)
    as (_ & -> & _).
  rewrite Hth, Hre. cbn [app].
  unfold after_verdict, header_events, registered, notification_events,
    decision_events.
  rewrite (over_guard_positive T c HT), Hh, Hsent.
  destruct (Z.ltb_spec T c); [|lia]. split.
  - destruct rt, (skipFailedRequests options), (skipSuccessfulRequests options),
      (truthy (number T) && strict_eq (number c) (add (number T) (number 1))),
      (handler options); reflexivity.
  - unfold Math_ceil_div.
    pose proof (Z.div_mod (- windowMs options) 1000 ltac:(lia)).
    pose proof (Z.mod_pos_bound (- windowMs options) 1000 ltac:(lia)). lia.
Qed.

(** One second before the end of a 60 s window the sixth request is
    blocked with Retry-After: 60, where the remaining duration of the
    window is 1 s. *)
Lemma C7_retry_after_is_not_the_remaining_window :
  let evs := events (rateLimit (with_options []) (MemoryStore 60000) client
                               express_next late_in_window) in
  clock late_in_window = 59000
  ∧ attached evs = [verdict (number 5) 6 (Some 60000)]
  ∧ count_of is_handler evs = 1%nat
  ∧ header_values "Retry-After" evs = [hv (number 60)]
  ∧ spec_retry_after 60000 59000 = 1
  ∧ header_values "Retry-After" evs
    ≠ [hv (number (spec_retry_after 60000 59000))].
Proof. vm_compute. repeat split; try reflexivity. discriminate. Qed.

(** The same request, by the theorem. *)
Lemma C7_sixth_request_retry_after_60 :
  0 < 5 ∧ 5 < 6
  ∧ Counted (with_options []) (MemoryStore 60000) client late_in_window
            "10.0.0.1" 6 (Some 60000) (one_hit 6 60000)
  ∧ headers (with_options []) = true
  ∧ headersSent (res late_in_window) = false
  ∧ (let secs := Math_ceil_div (windowMs (with_options [])) 1000 in
     header_values "Retry-After"
       (events (rateLimit (with_options []) (MemoryStore 60000) client
                          express_next late_in_window))
     = [hv (number secs)]
     ∧ windowMs (with_options []) ≤ 1000 * secs
       < windowMs (with_options []) + 1000).
Proof.
  assert (Counted (with_options []) (MemoryStore 60000) client late_in_window
                  "10.0.0.1" 6 (Some 60000) (one_hit 6 60000)) as Hc
    by (eapply Counted_intro; reflexivity).
  split; [lia|]. split; [lia|]. split; [exact Hc|].
  split; [reflexivity|]. split; [reflexivity|].
  apply (C7_retry_after_is_window_length
           (with_options []) (MemoryStore 60000) client express_next
           late_in_window "10.0.0.1" 6 (Some 60000) (one_hit 6 60000) 5).
  - lia.
  - lia.
  - exact Hc.
  - reflexivity.
  - reflexivity.
  - reflexivity.
Defined.

(** ** The limit-reached notification *)

(** Without a listener on [res], what the host does afterwards reaches
    neither the store nor the log. *)
Lemma host_steps_no_listeners {S} (the_store : Store S) hs (s : State S) :
  listeners s = [] →
  host_steps the_store hs s = (Ok tt, snd (fst (host_steps the_store hs s)), [])
  ∧ contents (final (host_steps the_store hs s)) = contents s.
Proof.
  revert s. induction hs as [|h hs IH]; intros s Hl.
  - split; reflexivity.
  - assert (∃ s1, host_step the_store h s = (Ok tt, s1, [])
                  ∧ listeners s1 = [] ∧ contents s1 = contents s)
      as (s1 & Hstep & Hl1 & Hc1).
    { destruct h as [status|sig]; cbn.
      - eexists. split; [reflexivity|]. split; [exact Hl | reflexivity].
      - exists s. unfold res_emit. run_M. rewrite Hl. cbn. auto. }
    destruct (IH s1 Hl1) as [Hrun Hcont].
    change (host_steps the_store (h :: hs))
      with (host_step the_store h ≫= λ _, host_steps the_store hs).
    unfold mbind, M_bind. rewrite Hstep.
    unfold final in *. rewrite Hrun in *. cbn in *. split; [reflexivity|].
    congruence.
Qed.

(** The notification of a counted request with a positive threshold. *)
Lemma notification_on_edge {S} (options : Options S) (the_store : Store S)
    req next (s : State S) key c rt c' T :
  0 < T → T ≤ MAX_SAFE_INTEGER →
  Counted options the_store req s key c rt c' →
  Promise_resolve (maxResult options req (res s)) = fulfilled (number T) →
  count_of is_limit_reached (events (rateLimit options the_store req next s))
  = if c =? T + 1 then 1%nat else 0%nat.
Proof.
  intros HT Hsafe Hc Hmax.
  destruct (number_threshold_never_aborts options req next (res s) T Hmax)
    as (Hth & Hre & Hab).
  destruct (rateLimit_counted options the_store req next key c rt c' s Hc Hab)
    as (_ & -> & _).
  rewrite Hth, Hre. cbn [app].
  unfold after_verdict, header_events, registered, notification_events,
    decision_events.
  rewrite (edge_guard_positive T c HT Hsafe), (over_guard_positive T c HT).
  destruct (headers options), (headersSent (res s)), rt,
    (skipFailedRequests options), (skipSuccessfulRequests options),
    (c =? T + 1), (T <? c), (handler options); reflexivity.
Qed.

(** A request served without skip accounting. *)
Lemma serve_without_skip_accounting {S} (options : Options S)
    (the_store : Store S) a (s : State S) key c rt c' :
  skipFailedRequests options = false →
  skipSuccessfulRequests options = false →
  Counted options the_store (request a) (new_request (at_time a) s) key c rt c' →
  let r := serve options the_store a s in
  events r = events (rateLimit options the_store (request a) (continuation a)
                               (new_request (at_time a) s))
  ∧ contents (final r) = c'.
Proof.
  intros Hsf Hss Hc r. subst r.
  destruct (rateLimit_proceeds options the_store (request a) (continuation a)
              key c rt c' _ (Counted_Proceeds _ _ _ _ _ _ _ _ Hc))
    as (Hres & _ & _ & Hcont & Hl & _).
  unfold callback_listeners, registered in Hl. rewrite Hsf, Hss in Hl.
  assert (listeners (final (rateLimit options the_store (request a)
                              (continuation a) (new_request (at_time a) s)))
          = []) as Hnil by (rewrite Hl; by destruct (aborts _ _ _)).
  clear Hl. rename Hnil into Hl.
  unfold serve, mbind, M_bind, modify. unfold result, final, events in *.
  destruct (rateLimit options the_store (request a) (continuation a)
              (new_request (at_time a) s)) as [[r1 s1] l1].
  cbn in *. subst r1.
  destruct (host_steps_no_listeners the_store (afterwards a) s1 Hl) as [Hrun Hc1].
  rewrite Hrun. unfold final in Hc1. cbn. rewrite app_nil_r. split; [done|].
  congruence.
Qed.

(** Successive hits on a key whose window is open: the memory store
    counts them one by one. *)
Lemma serve_all_open_window (options : Options (gmap string CounterEntry))
    W key T arrivals :
  0 < T → T ≤ MAX_SAFE_INTEGER →
  skipFailedRequests options = false →
  skipSuccessfulRequests options = false →
  Forall (Attributed options key T) arrivals →
  ∀ (s : State (gmap string CounterEntry)) h reset,
    contents s !! key = Some {| count := h; windowResetAt := reset |} →
    Forall (λ a, at_time a < reset) arrivals →
    map (count_of is_limit_reached)
        (serve_all options (MemoryStore W) arrivals s)
    = map (λ i : nat, if h + Z.of_nat i =? T + 1 then 1%nat else 0%nat)
          (seq 1 (length arrivals)).
Proof.
  intros HT Hsafe Hsf Hss Hattr. induction Hattr as [|a rest Ha _ IH];
    intros s h reset Hkey Htimes; [reflexivity|].
  apply Forall_cons in Htimes as [Hta Htimes].
  destruct Ha as (Hskip & (kv & Hkg & Hkp) & Hmax).
  set (e := {| count := h + 1; windowResetAt := reset |}).
  assert (Counted options (MemoryStore W) (request a)
            (new_request (at_time a) s) key (h + 1) (Some reset)
            (<[key := e]> (contents s))) as Hc.
  { eapply Counted_intro; [exact Hskip | exact Hkg | exact Hkp | reflexivity |].
    cbn. unfold memory_incr. rewrite Hkey. cbn.
    destruct (Z.ltb_spec (at_time a) reset); [reflexivity | lia]. }
  destruct (serve_without_skip_accounting options (MemoryStore W) a s key
              (h + 1) (Some reset) _ Hsf Hss Hc) as [Hev Hcont].
  cbn [serve_all map length seq]. rewrite Hev.
  rewrite (notification_on_edge options (MemoryStore W) (request a)
             (continuation a) _ key (h + 1) (Some reset) _ T HT Hsafe Hc Hmax).
  f_equal.
  rewrite (IH _ (h + 1) reset); [| by rewrite Hcont, lookup_insert_eq | done].
  rewrite <- (seq_shift (length rest) 1), map_map. apply map_ext. intros i.
  replace (h + 1 + Z.of_nat i) with (h + Z.of_nat (Datatypes.S i)) by lia.
  reflexivity.
Qed.

(** Among the counts [h+1 .. h+n] at most one equals [T+1]. *)
Lemma one_edge_in_a_run T n : ∀ h,
  sum_list (map (λ i : nat, if h + Z.of_nat i =? T + 1 then 1%nat else 0%nat)
                (seq 1 n))
  = if (h <? T + 1) && (T + 1 <=? h + Z.of_nat n) then 1%nat else 0%nat.
Proof.
  induction n as [|n IH]; intros h.
  - cbn [seq map]. Z_cases.
  - cbn [seq map sum_list].
    rewrite <- (seq_shift n 1), map_map.
    erewrite map_ext; [rewrite (IH (h + 1))|]; cycle 1.
    { intros i. cbv beta.
      replace (h + Z.of_nat (Datatypes.S i)) with (h + 1 + Z.of_nat i) by lia.
      reflexivity. }
    Z_cases.
Qed.

(** C6.  With a positive threshold [T] that is a safe integer (below
    2^53, so that [T + 1] is exact) the notification is invoked on
    a request exactly when the count returned for it is [T + 1], not
    for a count of at most [T] and not for a count above [T + 1].  For
    requests of one key served within one window of the memory store
    with skip accounting disabled the counts are 1, 2, 3, ...: the
    notification is invoked on the request number [T + 1] only, once
    in the whole run when more than [T] requests arrive and never
    otherwise. *)
Theorem C6_limit_reached_once_per_crossing T :
  0 < T → T ≤ MAX_SAFE_INTEGER →
  (∀ S (options : Options S) (the_store : Store S) req next (s : State S)
     key c rt c',
     Counted options the_store req s key c rt c' →
     Promise_resolve (maxResult options req (res s)) = fulfilled (number T) →
     count_of is_limit_reached (events (rateLimit options the_store req next s))
     = if c =? T + 1 then 1%nat else 0%nat)
  ∧ (∀ (options : Options (gmap string CounterEntry)) W key first rest hits,
       skipFailedRequests options = false →
       skipSuccessfulRequests options = false →
       Forall (Attributed options key T) (first :: rest) →
       hits !! key = None →
       Forall (λ a, at_time a < at_time first + W) rest →
       let n := length (first :: rest) in
       let runs := serve_all options (MemoryStore W) (first :: rest)
                             (initial_state hits) in
       map (count_of is_limit_reached) runs
       = map (λ i : nat, if Z.of_nat i =? T + 1 then 1%nat else 0%nat) (seq 1 n)
       ∧ count_of is_limit_reached (concat runs)
         = if T <? Z.of_nat n then 1%nat else 0%nat).
Proof.
  intros HT Hsafe. split.
  { intros. by eapply notification_on_edge. }
  intros options W key first rest hits Hsf Hss Hattr Hnone Htimes n runs.
  assert (map (count_of is_limit_reached) runs
          = map (λ i : nat, if 0 + Z.of_nat i =? T + 1 then 1%nat else 0%nat)
                (seq 1 n)) as Hruns.
  { subst runs n.
    apply Forall_cons in Hattr as [Ha Hrest].
    pose proof Ha as (Hskip & (kv & Hkg & Hkp) & Hmax).
    set (e := {| count := 1; windowResetAt := at_time first + W |}).
    assert (Counted options (MemoryStore W) (request first)
              (new_request (at_time first) (initial_state hits)) key 1
              (Some (at_time first + W)) (<[key := e]> hits)) as Hc.
    { eapply Counted_intro; [exact Hskip | exact Hkg | exact Hkp | reflexivity |].
      cbn. unfold memory_incr. rewrite Hnone. reflexivity. }
    destruct (serve_without_skip_accounting options (MemoryStore W) first _ key
                1 (Some (at_time first + W)) _ Hsf Hss Hc) as [Hev Hcont].
    cbn [serve_all map length seq]. rewrite Hev.
    rewrite (notification_on_edge options (MemoryStore W) (request first)
               (continuation first) _ key 1 (Some (at_time first + W)) _ T
               HT Hsafe Hc Hmax).
    f_equal.
    rewrite (serve_all_open_window options W key T rest HT Hsafe Hsf Hss Hrest _ 1
               (at_time first + W));
      [| by rewrite Hcont, lookup_insert_eq | done].
    rewrite <- (seq_shift (length rest) 1), map_map. apply map_ext. intros i.
    replace (1 + Z.of_nat i) with (0 + Z.of_nat (Datatypes.S i)) by lia.
    reflexivity. }
  split.
  - rewrite Hruns. apply map_ext. intros i. reflexivity.
  - rewrite count_of_concat, Hruns, one_edge_in_a_run.
    Z_cases.
Qed.

(** With [skipFailedRequests] a blocked request is answered 429 and
    un-counted when its response finishes, so the next request of the
    window is again the one that crosses the threshold: the notification
    is invoked a second time in the same window. *)
Lemma C6_notified_twice_in_one_window :
  let options := with_options [p_max (max_value (plain (number 1)));
                               p_skipFailedRequests true] in
  let runs := serve_all options (MemoryStore 60000)
                [arrival 0 [host_end 200; host_emit finish];
                 arrival 1000 [host_emit finish];
                 arrival 2000 [host_emit finish]]
                (initial_state ∅) in
  map attached runs = [[verdict (number 1) 1 (Some 60000)];
                       [verdict (number 1) 2 (Some 60000)];
                       [verdict (number 1) 2 (Some 60000)]]
  ∧ map (count_of is_limit_reached) runs = [0; 1; 1]%nat
  ∧ count_of is_limit_reached (concat runs) ≠ 1%nat.
Proof. vm_compute. repeat split; try reflexivity. discriminate. Qed.

Lemma Attributed_client (options : Options Hits) T t hs :
  skip options client fresh_res = returns false →
  keyGenerator options client fresh_res = returns (key_value (plain "10.0.0.1")) →
  Promise_resolve (maxResult options client fresh_res) = fulfilled (number T) →
  Attributed options "10.0.0.1" T (arrival t hs).
Proof.
  intros Hs Hk Hm. split; [exact Hs|]. split; [|exact Hm].
  exists (plain "10.0.0.1"). split; [exact Hk | reflexivity].
Defined.

(** Three requests against a threshold of 2: the third one notifies. *)
Lemma C6_third_request_notifies :
  0 < 2 ∧ 2 ≤ MAX_SAFE_INTEGER
  ∧ (let runs := serve_all (with_options [p_max (max_value (plain (number 2)))])
                   (MemoryStore 60000)
                   [arrival 0 [host_end 200; host_emit finish];
                    arrival 10 [host_end 200; host_emit finish];
                    arrival 20 [host_emit finish]]
                   (initial_state ∅) in
     map (count_of is_limit_reached) runs = [0; 0; 1]%nat
     ∧ count_of is_limit_reached (concat runs) = 1%nat).
Proof.
  split; [lia|]. split; [done|].
  destruct (C6_limit_reached_once_per_crossing 2 ltac:(lia) ltac:(done))
    as [_ Hrun].
  apply (Hrun (with_options [p_max (max_value (plain (number 2)))]) 60000
              "10.0.0.1"
              (arrival 0 [host_end 200; host_emit finish])
              [arrival 10 [host_end 200; host_emit finish];
               arrival 20 [host_emit finish]]
              ∅).
  - reflexivity.
  - reflexivity.
  - repeat (apply Forall_cons; split;
            [apply Attributed_client; reflexivity|]).
    apply Forall_nil_2.
  - reflexivity.
  - repeat (apply Forall_cons; split; [cbn; lia|]). apply Forall_nil_2.
Defined.

(** ** Skip accounting and the latch *)

Section Latch.
Context {S : Type}.
Variable options : Options S.
Variable the_store : Store S.

Lemma Latched_bind {A B} (m : M S A) (f : A → M S B) :
  Latched m → (∀ a, Latched (f a)) → Latched (m ≫= f).
Proof.
  intros Hm Hf s Hs. specialize (Hm s Hs).
  unfold mbind, M_bind, final, events in *.
  destruct (m s) as [[[a|e] s1] l1]; cbn [fst snd] in *; [|exact Hm].
  destruct Hm as [Hm1 Hm2].
  assert (all_latched s1) as Hs1 by (unfold all_latched; by rewrite Hm1).
  specialize (Hf a s1 Hs1). unfold final, events in Hf.
  destruct (f a s1) as [[r2 s2] l2]. cbn [fst snd] in *.
  rewrite count_of_app. destruct Hf as [Hf1 Hf2].
  split; [congruence | lia].
Qed.

Lemma Latched_ret {A} (a : A) : Latched (mret a : M S A).
Proof. intros s _. cbn. split; [done | lia]. Qed.

Lemma Latched_when b (m : M S unit) : Latched m → Latched (when b m).
Proof. destruct b; [done | intros _; apply Latched_ret]. Qed.

Lemma Latched_decrementKey key : Latched (decrementKey the_store key).
Proof.
  intros s _. unfold decrementKey, store_decrement, budget.
  destruct s as [cn rs rli ls d ck].
  destruct d, (decrement the_store); cbn; split; (done || lia).
Qed.

Lemma Latched_run_listener l :
  latched l = true → Latched (run_listener the_store l).
Proof.
  intros Hl. unfold run_listener. apply Latched_bind.
  - intros s _. cbn. split; [done | lia].
  - intros rs. destruct l; try discriminate;
      try apply Latched_when; apply Latched_decrementKey.
Qed.

Lemma Latched_run_listeners ls :
  Forall (λ l, latched l = true) ls → Latched (run_listeners the_store ls).
Proof.
  induction 1 as [|l ls Hl _ IH]; [apply Latched_ret|].
  cbn [run_listeners]. apply Latched_bind; [by apply Latched_run_listener|].
  intros _. exact IH.
Qed.

Lemma Latched_res_emit sig : Latched (res_emit the_store sig).
Proof.
  intros s Hs.
  assert (Latched (run_listeners the_store
            (map snd (List.filter (λ p : Signal * Listener, bool_decide (p.1 = sig))
                                  (listeners s))))) as H.
  { apply Latched_run_listeners. apply Forall_map.
    unfold all_latched in Hs. rewrite List.Forall_forall in *.
    intros p Hp. apply List.filter_In in Hp as [Hp _]. by apply Hs. }
  specialize (H s Hs). unfold res_emit, mbind, M_bind, gets, final, events in *.
  cbn [fst snd] in *.
  destruct (run_listeners _ _ s) as [[r1 s1] l1]. exact H.
Qed.

Lemma Latched_host_steps hs : Latched (host_steps the_store hs).
Proof.
  induction hs as [|h hs IH]; [apply Latched_ret|].
  cbn [host_steps]. apply Latched_bind; [|intros _; exact IH].
  destruct h as [status|sig]; [|apply Latched_res_emit].
  intros s _. split; [reflexivity|].
  unfold budget. cbn. destruct (decremented s); lia.
Qed.

End Latch.

(** What [rateLimit] leaves on a response that had no listener: no
    decrement was issued, and without [skipSuccessfulRequests] every
    listener goes through the latch. *)
Lemma rateLimit_registers_latched {S} (options : Options S)
    (the_store : Store S) req next (s : State S) :
  skipSuccessfulRequests options = false →
  listeners s = [] →
  let r := rateLimit options the_store req next s in
  count_of is_decrement (events r) = 0%nat ∧ all_latched (final r).
Proof.
  intros Hss Hl r. subst r. unfold all_latched.
  destruct (rateLimit_paths options the_store req next s)
    as [-> | [(e & _ & ->) | [(e & ->) | [(key & e & c' & ->)
       | (key & c & rt & c' & Hp)]]]];
    try (cbn; rewrite Hl; by auto).
  destruct (rateLimit_proceeds options the_store req next key c rt c' s Hp)
    as (_ & -> & _ & _ & -> & _).
  split.
  - apply count_of_none. constructor; [reflexivity|].
    apply Forall_app. split.
    + apply List.Forall_forall. intros e He.
      by apply resolution_events_next in He as [err ->].
    + pose proof (callback_events_tail options (res s) key
                    (threshold_seen options req next (res s)) c rt (clock s)
                    is_decrement (λ _, eq_refl)
                    (after_verdict_no_decrement _ _ _ _ _ _ _)) as Hall.
      unfold callback_events in *. constructor; [reflexivity | exact Hall].
  - rewrite Hl. unfold callback_listeners, registered. rewrite Hss.
    destruct (aborts _ _ _), (skipFailedRequests options); cbn;
      repeat constructor.
Qed.

(** X20.  Without [skipSuccessfulRequests], a request is un-counted at
    most once, whatever signals its response emits and however often. *)
Lemma failed_mode_decrements_at_most_once {S} (options : Options S)
    (the_store : Store S) a (s : State S) :
  skipSuccessfulRequests options = false →
  (count_of is_decrement (events (serve options the_store a s)) ≤ 1)%nat.
Proof.
  intros Hss.
  pose proof (rateLimit_registers_latched options the_store (request a)
                (continuation a) (new_request (at_time a) s) Hss eq_refl)
    as [Hnone Hlat].
  unfold serve, mbind, M_bind, modify, final, events in *. cbn [fst snd] in *.
  destruct (rateLimit options the_store (request a) (continuation a)
              (new_request (at_time a) s)) as [[[[]|e] s1] l1]; cbn [fst snd] in *.
  - destruct (Latched_host_steps the_store (afterwards a) s1 Hlat) as [_ Hle].
    unfold final, events in Hle.
    destruct (host_steps the_store (afterwards a) s1) as [[r2 s2] l2].
    cbn [fst snd app] in *. rewrite count_of_app, Hnone.
    unfold budget in Hle. destruct (decremented s1), (decremented s2); lia.
  - cbn [app]. lia.
Qed.

(** C3.  With both skip options enabled, a response that finishes with
    status 200 and then emits [error] is un-counted twice: the listener
    of [skipSuccessfulRequests] calls [options.store.decrement] itself
    (line 130) and leaves [decremented] unset, so [decrementKey] goes
    through again. *)
Theorem C3_successful_decrement_bypasses_latch :
  let options := with_options [p_skipFailedRequests true;
                               p_skipSuccessfulRequests true] in
  let evs := events (serve options (MemoryStore 60000)
                       (arrival 0 [host_end 200; host_emit finish; host_emit error])
                       (initial_state ∅)) in
  count_of is_incr evs = 1%nat
  ∧ List.filter is_decrement evs
    = [StoreDecrement "10.0.0.1"; StoreDecrement "10.0.0.1"].
Proof. vm_compute. split; reflexivity. Qed.

(** ** Validation of the store at construction *)

(** The guard of lines 35-42. *)
Lemma RateLimit_rejects_invalid_store {S} (MemoryStore : Z → Store S)
    (user_options : list (Property S)) st :
  store (Object_assign defaults user_options) = Some st →
  incr st = None
  ∨ resetKey st = None
  ∨ (skipFailedRequests (Object_assign defaults user_options) = true
     ∧ decrement st = None) →
  RateLimit MemoryStore user_options = throws "The store is not valid.".
Proof.
  intros Hst Hbad. unfold RateLimit. rewrite Hst.
  destruct Hbad as [-> | [-> | [-> ->]]]; cbn;
    rewrite ?orb_true_r; reflexivity.
Qed.

(** C4.  With [skipSuccessfulRequests] alone and a store that has no
    [decrement], the constructor returns a middleware; on a response
    that finishes with status 200 its listener calls the missing method
    and throws. *)
Theorem C4_store_unchecked_for_skipSuccessfulRequests :
  ∃ mw,
    RateLimit MemoryStore [p_skipSuccessfulRequests true;
                           p_store (Some store_without_decrement)]
    = returns mw
    ∧ result ((mw_call mw client express_next;;
               host_steps store_without_decrement [host_end 200; host_emit finish])
                (initial_state ∅))
      = Raise (TypeError "decrement").
Proof. eexists. split; [reflexivity | vm_compute; reflexivity]. Qed.

(** ** A threshold that fails to resolve *)

(** C5.  With headers disabled and a [max] function whose promise is
    rejected, the middleware calls [next(err)], then assigns a verdict
    whose limit is what [next] returned, and calls [next()]. *)
Theorem C5_rejected_threshold_still_attaches_and_continues :
  let options :=
    with_options
      [p_max (max_function (λ _ _, promise (rejected "threshold lookup failed")));
       p_headers false] in
  let r := rateLimit options (MemoryStore 60000) client express_next
                     (initial_state ∅) in
  events r = [StoreIncr "10.0.0.1";
              CallNext (Some "threshold lookup failed");
              SetRateLimit {| limit := undefined; current := 1;
                              remaining := NaN; resetTime := Some 60000 |};
              CallNext None]
  ∧ rateLimitInfo (final r)
    = Some {| limit := undefined; current := 1;
              remaining := NaN; resetTime := Some 60000 |}.
Proof. vm_compute. split; reflexivity. Qed.

(** With the headers left enabled the same request gets its verdict
    after [next(err)] as well, and line 87 then throws on the
    [undefined] that [next] returned. *)
Lemma rejected_threshold_with_headers_enabled :
  let options :=
    with_options
      [p_max (max_function (λ _ _, promise (rejected "threshold lookup failed")))] in
  events (rateLimit options (MemoryStore 60000) client express_next
                    (initial_state ∅))
  = [StoreIncr "10.0.0.1";
     CallNext (Some "threshold lookup failed");
     SetRateLimit {| limit := undefined; current := 1;
                     remaining := NaN; resetTime := Some 60000 |};
     UnhandledRejection (header_error "X-RateLimit-Limit")].
Proof. vm_compute. reflexivity. Qed.

(** * Further properties of the middleware *)

(** ** The result and the listeners of a run *)

(** The result of [rateLimit]. *)
Lemma rateLimit_result {S} (options : Options S) (the_store : Store S)
    req next (s : State S) :
  result (rateLimit options the_store req next s) = Ok tt
  ∨ ∃ e, escapes options req (res s) e
         ∧ rateLimit options the_store req next s = (Raise e, s, []).
Proof.
  destruct (rateLimit_paths options the_store req next s)
    as [-> | [(e' & He & Hr) | [(e' & ->) | [(key & e' & c' & ->)
       | (key & c & rt & c' & Hp)]]]]; try (by left).
  - right. by exists e'.
  - left.
    by destruct (rateLimit_proceeds options the_store req next key c rt c' s Hp)
      as (-> & _).
Qed.

(** The listeners after [rateLimit], on a response that had none. *)
Lemma rateLimit_listeners {S} (options : Options S) (the_store : Store S)
    req next (s : State S) :
  listeners s = [] →
  listeners (final (rateLimit options the_store req next s)) = []
  ∨ ∃ key, listeners (final (rateLimit options the_store req next s))
           = registered options key.
Proof.
  intros Hl.
  destruct (rateLimit_paths options the_store req next s)
    as [-> | [(e' & He & ->) | [(e' & ->) | [(key & e' & c' & ->)
       | (key & c & rt & c' & Hp)]]]]; try (by left).
  destruct (rateLimit_proceeds options the_store req next key c rt c' s Hp)
    as (_ & _ & _ & _ & -> & _). rewrite Hl. unfold callback_listeners.
  destruct (aborts _ _ _); [by left | right; by exists key].
Qed.

(** ** Requests that are not counted *)

(** On a response without listeners the host steps change the response
    fields only. *)
Lemma host_steps_inert {S} (the_store : Store S) hs : ∀ s0 : State S,
  listeners s0 = [] →
  ∃ s', host_steps the_store hs s0 = (Ok tt, s', [])
        ∧ contents s' = contents s0
        ∧ rateLimitInfo s' = rateLimitInfo s0.
Proof.
  induction hs as [|h hs IH]; intros s0 Hl; [by exists s0|].
  destruct h as [status|sig].
  - destruct (IH (set_res {| headersSent := true; statusCode := status;
                             finished := true |} s0) Hl) as (s' & Hs' & Hc & Hi).
    exists s'. split; [|done]. cbn [host_steps host_step].
    unfold mbind, M_bind, modify. rewrite Hs'. reflexivity.
  - destruct (IH s0 Hl) as (s' & Hs' & Hc & Hi).
    exists s'. split; [|done]. cbn [host_steps host_step].
    unfold res_emit. run_M. rewrite Hl. cbn. rewrite Hs'. reflexivity.
Qed.

(** X1.  A request for which [options.skip] answers true: the
    middleware calls [next()] and nothing else, and whatever the
    response does afterwards the store is never called and keeps its
    contents. *)
Theorem skipped_request_only_continues
    {S} (options : Options S) (the_store : Store S) a (s : State S) :
  skip options (request a) fresh_res = returns true →
  let r := serve options the_store a s in
  result r = Ok tt
  ∧ events r = [CallNext None]
  ∧ contents (final r) = contents s
  ∧ rateLimitInfo (final r) = None.
Proof.
  intros Hskip r. subst r.
  pose proof (rateLimit_skipped options the_store (request a) (continuation a)
                (new_request (at_time a) s) Hskip) as Hrun.
  destruct (host_steps_inert the_store (afterwards a)
              (new_request (at_time a) s) eq_refl) as (s' & Hs' & Hc & Hi).
  unfold serve, mbind, M_bind, modify, result, events, final.
  rewrite Hrun, Hs'. cbn. auto.
Qed.

Lemma skipped_request_only_continues_witness :
  skip (with_options [p_skip (λ _ _, returns true); p_skipFailedRequests true])
       (request (arrival 0 [host_end 500; host_emit finish; host_emit close]))
       fresh_res = returns true
  ∧ (let r := serve (with_options [p_skip (λ _ _, returns true);
                                   p_skipFailedRequests true])
                    (MemoryStore 60000)
                    (arrival 0 [host_end 500; host_emit finish; host_emit close])
                    (initial_state (one_hit 3 60000)) in
     result r = Ok tt
     ∧ events r = [CallNext None]
     ∧ contents (final r) = one_hit 3 60000
     ∧ rateLimitInfo (final r) = None).
Proof.
  split; [reflexivity|].
  apply (skipped_request_only_continues
           (with_options [p_skip (λ _ _, returns true); p_skipFailedRequests true])
           (MemoryStore 60000)
           (arrival 0 [host_end 500; host_emit finish; host_emit close])
           (initial_state (one_hit 3 60000))).
  reflexivity.
Defined.

(** X2.  When the store answers the increment with an error that is
    truthy (line 67), the middleware hands it to [next(err)] right
    after the increment and stops: no verdict is assigned, no header is
    set, the handler is not invoked and no listener is registered, so
    that nothing the response does afterwards reaches the store
    again. *)
Theorem store_error_goes_to_next
    {S} (options : Options S) (the_store : Store S) a (s : State S)
    kv key f err c0 rt0 c' :
  skip options (request a) fresh_res = returns false →
  keyGenerator options (request a) fresh_res = returns (key_value kv) →
  keyPromise kv = fulfilled key →
  incr the_store = Some f →
  f key (at_time a) (contents s) = (incr_err err c0 rt0, c') →
  truthy_error err = true →
  let r := serve options the_store a s in
  result r = Ok tt
  ∧ events r = [StoreIncr key; CallNext (Some err)]
  ∧ contents (final r) = c'
  ∧ rateLimitInfo (final r) = None.
Proof.
  intros Hskip Hkg Hkp Hf Hincr Herr r. subst r.
  pose proof (rateLimit_store_error options the_store (request a)
                (continuation a) (new_request (at_time a) s) kv key f err
                c0 rt0 c' Hskip Hkg Hkp Hf Hincr Herr) as Hrun.
  destruct (host_steps_inert the_store (afterwards a)
              (set_contents c' (new_request (at_time a) s)) eq_refl)
    as (s' & Hs' & Hc & Hi).
  unfold serve, mbind, M_bind, modify, result, events, final.
  rewrite Hrun, Hs'. cbn. auto.
Qed.

Lemma store_error_goes_to_next_witness :
  incr failing_store
  = Some (λ _ _ hits, (incr_err "store unavailable" 0 None, hits))
  ∧ truthy_error "store unavailable" = true
  ∧ (let r := serve (with_options [p_skipFailedRequests true]) failing_store
                    (arrival 0 [host_end 500; host_emit finish])
                    (initial_state ∅) in
     result r = Ok tt
     ∧ events r = [StoreIncr "10.0.0.1"; CallNext (Some "store unavailable")]
     ∧ contents (final r) = ∅
     ∧ rateLimitInfo (final r) = None).
Proof.
  split; [reflexivity|]. split; [reflexivity|].
  apply (store_error_goes_to_next
           (with_options [p_skipFailedRequests true]) failing_store
           (arrival 0 [host_end 500; host_emit finish]) (initial_state ∅)
           (plain "10.0.0.1") "10.0.0.1"
           (λ _ _ hits, (incr_err "store unavailable" 0 None, hits))
           "store unavailable" 0 None ∅);
    reflexivity.
Defined.

(** An error that is falsy is not seen by line 67: the request goes on
    as a counted one, with the count the store passed along. *)
Lemma falsy_store_error_is_ignored :
  let st := mkStore (Some (λ _ _ hits, (incr_err EmptyString 1 None, hits)))
                    (Some memory_resetKey) (Some memory_decrement) in
  truthy_error EmptyString = false
  ∧ events (rateLimit (with_options []) st client express_next
                      (initial_state ∅))
    = [StoreIncr "10.0.0.1";
       SetRateLimit (verdict (number 5) 1 None);
       SetHeader "X-RateLimit-Limit" (hv (number 5));
       SetHeader "X-RateLimit-Remaining" (hv (number 4));
       CallNext None].
Proof. vm_compute. split; reflexivity. Qed.

(** ** What the middleware asks of the store, and what escapes it *)

Lemma after_verdict_no_store_call {S} (options : Options S) rs key max c rt now :
  Forall (λ e, is_store_call e = false)
         (after_verdict options rs key max c rt now).
Proof.
  unfold after_verdict, header_events, registered, notification_events,
    decision_events.
  destruct (headers options), (headersSent rs), rt,
    (skipFailedRequests options), (skipSuccessfulRequests options),
    (truthy max && strict_eq (number c) (add max (number 1))),
    (truthy max && gt (number c) max), (handler options);
    cbn; repeat constructor.
Qed.

Lemma resolution_events_no_store_call {S} (options : Options S) req rs :
  Forall (λ e, is_store_call e = false) (resolution_events options req rs).
Proof.
  unfold resolution_events.
  destruct (Promise_resolve (maxResult options req rs)); repeat constructor.
Qed.

(** After the increment the middleware calls the store no more. *)
Lemma callback_events_no_store_call {S} (options : Options S) req next rs key
    c rt now :
  Forall (λ e, is_store_call e = false)
         (resolution_events options req rs
          ++ callback_events options rs key (threshold_seen options req next rs)
               c rt now).
Proof.
  apply Forall_app. split; [apply resolution_events_no_store_call|].
  pose proof (callback_events_tail options rs key
                (threshold_seen options req next rs) c rt now
                is_store_call (λ _, eq_refl)
                (after_verdict_no_store_call _ _ _ _ _ _ _)) as Hall.
  unfold callback_events in *. constructor; [reflexivity | exact Hall].
Qed.

(** X3.  Whatever the options, the store and the request, one call of
    the middleware asks the store for at most one increment, and the
    only store call it makes is that [incr], its first call: it never
    calls [decrement] nor [resetKey] itself. *)
Theorem rateLimit_store_calls
    {S} (options : Options S) (the_store : Store S) req next (s : State S) :
  let evs := events (rateLimit options the_store req next s) in
  (count_of is_incr evs ≤ 1)%nat
  ∧ count_of is_decrement evs = 0%nat
  ∧ count_of is_reset_key evs = 0%nat
  ∧ count_of is_store_call (tail evs) = 0%nat.
Proof.
  intros evs. subst evs.
  destruct (rateLimit_paths options the_store req next s)
    as [-> | [(e & _ & ->) | [(e & ->) | [(key & e & c' & ->)
       | (key & c & rt & c' & Hp)]]]];
    try (cbn; repeat split; lia).
  destruct (rateLimit_proceeds options the_store req next key c rt c' s Hp)
    as (_ & -> & _).
  pose proof (callback_events_no_store_call options req next (res s) key c rt
                (clock s)) as Hrest.
  rewrite !count_of_cons. cbn [is_incr is_decrement is_reset_key tail].
  repeat split.
  - rewrite (count_of_none is_incr); [lia|].
    eapply Forall_impl; [exact Hrest|]. intros [] ?; done.
  - rewrite (count_of_none is_decrement); [lia|].
    eapply Forall_impl; [exact Hrest|]. intros [] ?; done.
  - rewrite (count_of_none is_reset_key); [lia|].
    eapply Forall_impl; [exact Hrest|]. intros [] ?; done.
  - by apply count_of_none.
Qed.



(** ** Headers *)

(** X5.  With header emission disabled, or with headers already sent
    when the middleware runs, [res.setHeader] is never called: not for
    the limit, not for the reset time, and not for Retry-After on a
    blocked request. *)
Theorem no_header_when_disabled_or_sent
    {S} (options : Options S) (the_store : Store S) req next (s : State S) :
  headers options = false ∨ headersSent (res s) = true →
  count_of is_set_header (events (rateLimit options the_store req next s))
  = 0%nat.
Proof.
  intros Hoff.
  destruct (rateLimit_paths options the_store req next s)
    as [-> | [(e & _ & ->) | [(e & ->) | [(key & e & c' & ->)
       | (key & c & rt & c' & Hp)]]]];
    try reflexivity.
  destruct (rateLimit_proceeds options the_store req next key c rt c' s Hp)
    as (_ & -> & _).
  assert (headers options && negb (headersSent (res s)) = false) as Hguard.
  { destruct Hoff as [-> | ->]; [reflexivity | apply andb_false_r]. }
  unfold callback_events, aborts, after_verdict, header_events, registered,
    notification_events, decision_events, resolution_events.
  rewrite Hguard. cbn [andb].
  destruct (Promise_resolve (maxResult options req (res s))),
    (skipFailedRequests options), (skipSuccessfulRequests options),
    (truthy (threshold_seen options req next (res s))
     && strict_eq (number c)
          (add (threshold_seen options req next (res s)) (number 1))),
    (truthy (threshold_seen options req next (res s))
     && gt (number c) (threshold_seen options req next (res s))),
    (handler options); reflexivity.
Qed.

Lemma no_header_when_disabled_or_sent_witness :
  (headers (with_options [p_headers false]) = false
   ∨ headersSent (res late_in_window) = true)
  ∧ count_of is_set_header
      (events (rateLimit (with_options [p_headers false]) (MemoryStore 60000)
                         client express_next late_in_window))
    = 0%nat.
Proof.
  split; [left; reflexivity|].
  apply (no_header_when_disabled_or_sent
           (with_options [p_headers false]) (MemoryStore 60000) client
           express_next late_in_window).
  left. reflexivity.
Defined.

(** X6.  A counted request whose threshold resolved to [max], with
    headers enabled and not yet sent.  When [max] is not [undefined],
    X-RateLimit-Limit is [max] and X-RateLimit-Remaining is the
    [remaining] of the verdict, each set once; when the store gave a
    reset time [t] (a Date), Date is the clock reading and
    X-RateLimit-Reset is [t] in seconds rounded up; when it gave none,
    neither Date nor X-RateLimit-Reset is set.  When [max] is
    [undefined] the first [setHeader] throws and no header is set. *)
Theorem rate_limit_headers
    {S} (options : Options S) (the_store : Store S) req next (s : State S)
    key c rt c' max :
  Counted options the_store req s key c rt c' →
  Promise_resolve (maxResult options req (res s)) = fulfilled max →
  headers options = true → headersSent (res s) = false →
  let evs := events (rateLimit options the_store req next s) in
  (max ≠ undefined →
   header_values "X-RateLimit-Limit" evs = [hv max]
   ∧ header_values "X-RateLimit-Remaining" evs
     = [hv (Math_max (sub max (number c)) (number 0))]
   ∧ match rt with
     | Some t =>
         header_values "Date" evs = [hv_date (clock s)]
         ∧ ∃ secs, header_values "X-RateLimit-Reset" evs = [hv (number secs)]
                   ∧ t ≤ 1000 * secs < t + 1000
     | None =>
         header_values "Date" evs = []
         ∧ header_values "X-RateLimit-Reset" evs = []
     end)
  ∧ (max = undefined →
     count_of is_set_header evs = 0%nat
     ∧ count_of is_unhandled evs = 1%nat).
Proof.
  intros Hc Hmax Hh Hsent evs. subst evs.
  assert (threshold_seen options req next (res s) = max) as Hth
    by (unfold threshold_seen; by rewrite Hmax).
  assert (resolution_events options req (res s) = []) as Hre
    by (unfold resolution_events; by rewrite Hmax).
  split.
  - intros Hdef.
    assert (aborts options (res s) (threshold_seen options req next (res s))
            = false) as Hab.
    { rewrite Hth. unfold aborts. rewrite Hh, Hsent. by destruct max. }
    destruct (rateLimit_counted options the_store req next key c rt c' s Hc Hab)
      as (_ & -> & _).
    rewrite Hth, Hre. cbn [app].
    unfold after_verdict, header_events, registered, notification_events,
      decision_events.
    rewrite Hh, Hsent.
    destruct rt as [t|].
    + repeat split;
        try (destruct (skipFailedRequests options),
               (skipSuccessfulRequests options),
               (truthy max && strict_eq (number c) (add max (number 1))),
               (truthy max && gt (number c) max), (handler options);
             reflexivity).
      exists (Math_ceil_div t 1000). split.
      * destruct (skipFailedRequests options), (skipSuccessfulRequests options),
          (truthy max && strict_eq (number c) (add max (number 1))),
          (truthy max && gt (number c) max), (handler options);
          reflexivity.
      * unfold Math_ceil_div.
        pose proof (Z.div_mod (- t) 1000 ltac:(lia)).
        pose proof (Z.mod_pos_bound (- t) 1000 ltac:(lia)). lia.
    + repeat split;
        destruct (skipFailedRequests options), (skipSuccessfulRequests options),
          (truthy max && strict_eq (number c) (add max (number 1))),
          (truthy max && gt (number c) max), (handler options);
        reflexivity.
  - intros ->.
    assert (aborts options (res s) (threshold_seen options req next (res s))
            = true) as Hab.
    { rewrite Hth. unfold aborts. by rewrite Hh, Hsent. }
    rewrite (rateLimit_counted_aborted options the_store req next key c rt c' s
               Hc Hab).
    unfold events. cbn [snd]. rewrite Hre. split; reflexivity.
Qed.

Lemma rate_limit_headers_witness :
  Counted (with_options []) (MemoryStore 60000) client (initial_state ∅)
          "10.0.0.1" 1 (Some 60000) (one_hit 1 60000)
  ∧ number 5 ≠ undefined
  ∧ (let evs := events (rateLimit (with_options []) (MemoryStore 60000)
                                  client express_next (initial_state ∅)) in
     header_values "X-RateLimit-Limit" evs = [hv (number 5)]
     ∧ header_values "X-RateLimit-Remaining" evs
       = [hv (Math_max (sub (number 5) (number 1)) (number 0))]
     ∧ header_values "Date" evs = [hv_date (clock (initial_state (∅ : Hits)))]
       ∧ ∃ secs, header_values "X-RateLimit-Reset" evs = [hv (number secs)]
                 ∧ 60000 ≤ 1000 * secs < 60000 + 1000).
Proof.
  assert (Counted (with_options []) (MemoryStore 60000) client (initial_state ∅)
                  "10.0.0.1" 1 (Some 60000) (one_hit 1 60000)) as Hc
    by (eapply Counted_intro; reflexivity).
  split; [exact Hc|]. split; [discriminate|].
  apply (rate_limit_headers
           (with_options []) (MemoryStore 60000) client express_next
           (initial_state ∅) "10.0.0.1" 1 (Some 60000) (one_hit 1 60000)
           (number 5) Hc eq_refl eq_refl eq_refl).
  discriminate.
Defined.

(** ** The constructor *)

Section ConstructorProperties.
Context {S : Type}.
Variable MemoryStore : Z → Store S.

Lemma RateLimit_accepts (user_options : list (Property S)) :
  let options := Object_assign defaults user_options in
  let st := store_in_use MemoryStore options in
  store_accepted options st →
  truthy (global options) = false →
  truthy (delayMs options) = false →
  truthy (delayAfter options) = false →
  RateLimit MemoryStore user_options
  = returns {| mw_call := rateLimit options st;
               mw_resetKey := store_resetKey st;
               mw_resetIp := store_resetKey st |}.
Proof.
  intros options st (Hi & Hr & Hd) Hg Hm Ha. subst options st.
  unfold RateLimit, retired_option, store_in_use in *.
  set (o := Object_assign defaults user_options) in *.
  set (st := match store o with Some st => st | None => MemoryStore (windowMs o) end)
    in *.
  rewrite Hi, Hr. cbn [negb orb].
  assert (skipFailedRequests o && negb (is_function (decrement st)) = false)
    as ->.
  { destruct (skipFailedRequests o); [|done]. by rewrite (Hd eq_refl). }
  cbn [List.find snd fst]. rewrite Hg, Hm, Ha. reflexivity.
Qed.

Lemma RateLimit_returns_inv (user_options : list (Property S)) mw :
  RateLimit MemoryStore user_options = returns mw →
  let options := Object_assign defaults user_options in
  store_accepted options (store_in_use MemoryStore options)
  ∧ truthy (global options) = false
  ∧ truthy (delayMs options) = false
  ∧ truthy (delayAfter options) = false.
Proof.
  intros Hmw options. subst options.
  unfold RateLimit, store_accepted, store_in_use, retired_option in *.
  set (o := Object_assign defaults user_options) in *.
  set (st := match store o with Some st => st | None => MemoryStore (windowMs o) end)
    in *.
  destruct (is_function (incr st)), (is_function (resetKey st)),
    (skipFailedRequests o), (is_function (decrement st));
    cbn [negb orb andb] in Hmw; try discriminate;
    cbn [List.find snd fst] in Hmw;
    destruct (truthy (global o)), (truthy (delayMs o)), (truthy (delayAfter o));
    cbn in Hmw; try discriminate; repeat split; auto; discriminate.
Qed.

(** X7.  [RateLimit(options)] returns a middleware exactly when the
    store in use has [incr] and [resetKey], has [decrement] if
    [skipFailedRequests] is set, and none of the retired options
    [global], [delayMs], [delayAfter] is truthy (0 passes). *)
Theorem RateLimit_returns_iff (user_options : list (Property S)) :
  let options := Object_assign defaults user_options in
  (∃ mw, RateLimit MemoryStore user_options = returns mw)
  ↔ store_accepted options (store_in_use MemoryStore options)
    ∧ truthy (global options) = false
    ∧ truthy (delayMs options) = false
    ∧ truthy (delayAfter options) = false.
Proof.
  intros options. split.
  - intros [mw Hmw]. by apply RateLimit_returns_inv in Hmw.
  - intros (Hacc & Hg & Hm & Ha). eexists.
    by apply RateLimit_accepts.
Qed.

(** X8.  The retired options are reported in the order [global],
    [delayMs], [delayAfter], after the store was accepted: the message
    names the first of them that is truthy. *)
Theorem RateLimit_retired_option (user_options : list (Property S)) :
  let options := Object_assign defaults user_options in
  store_accepted options (store_in_use MemoryStore options) →
  (truthy (global options) = true →
   RateLimit MemoryStore user_options
   = throws "The global option was removed from express-rate-limit v3.")
  ∧ (truthy (global options) = false → truthy (delayMs options) = true →
     RateLimit MemoryStore user_options
     = throws "The delayMs option was removed from express-rate-limit v3.")
  ∧ (truthy (global options) = false → truthy (delayMs options) = false →
     truthy (delayAfter options) = true →
     RateLimit MemoryStore user_options
     = throws "The delayAfter option was removed from express-rate-limit v3.").
Proof.
  intros options (Hi & Hr & Hd). subst options.
  unfold RateLimit, store_in_use, retired_option in *.
  set (o := Object_assign defaults user_options) in *.
  set (st := match store o with Some st => st | None => MemoryStore (windowMs o) end)
    in *.
  rewrite Hi, Hr. cbn [negb orb].
  assert (skipFailedRequests o && negb (is_function (decrement st)) = false)
    as ->.
  { destruct (skipFailedRequests o); [|done]. by rewrite (Hd eq_refl). }
  cbn [List.find snd fst].
  repeat split.
  - intros ->. reflexivity.
  - intros -> ->. reflexivity.
  - intros -> -> ->. reflexivity.
Qed.

(** What a returned middleware is made of. *)
Lemma RateLimit_returns (user_options : list (Property S)) mw :
  RateLimit MemoryStore user_options = returns mw →
  let options := Object_assign defaults user_options in
  let st := store_in_use MemoryStore options in
  mw = {| mw_call := rateLimit options st;
          mw_resetKey := store_resetKey st;
          mw_resetIp := store_resetKey st |}
  ∧ store_accepted options st.
Proof.
  intros Hmw options st.
  destruct (RateLimit_returns_inv user_options mw Hmw) as (Hacc & Hg & Hm & Ha).
  split; [|exact Hacc].
  rewrite (RateLimit_accepts user_options Hacc Hg Hm Ha) in Hmw.
  by injection Hmw as <-.
Qed.

End ConstructorProperties.

Lemma RateLimit_retired_option_witness :
  store_accepted (Object_assign defaults [p_delayMs (number 1000)])
                 (store_in_use MemoryStore
                    (Object_assign defaults [p_delayMs (number 1000)]))
  ∧ RateLimit MemoryStore [p_delayMs (number 1000)]
    = throws "The delayMs option was removed from express-rate-limit v3.".
Proof.
  assert (store_accepted (Object_assign defaults [p_delayMs (number 1000)])
            (store_in_use MemoryStore
               (Object_assign defaults [p_delayMs (number 1000)]))) as Hacc
    by (repeat split; reflexivity).
  split; [exact Hacc|].
  destruct (RateLimit_retired_option MemoryStore [p_delayMs (number 1000)] Hacc)
    as (_ & Hd & _).
  apply Hd; reflexivity.
Defined.

(** ** The middleware a constructor returned *)

Section Returned.
Context {S : Type}.
Variable MemoryStore : Z → Store S.

(** X9.  On a middleware returned by [RateLimit], [resetIp] is
    [resetKey], and [resetKey(key)] is the store's [resetKey] applied
    to the contents of the store in use: it always returns, makes this
    one store call and changes nothing else. *)
Theorem returned_resetKey_is_the_stores (user_options : list (Property S)) mw :
  RateLimit MemoryStore user_options = returns mw →
  mw_resetIp mw = mw_resetKey mw
  ∧ ∃ f, resetKey (store_in_use MemoryStore (Object_assign defaults user_options))
         = Some f
         ∧ ∀ key (s : State S),
             mw_resetKey mw key s
             = (Ok tt, set_contents (f key (contents s)) s, [StoreResetKey key]).
Proof.
  intros Hmw.
  destruct (RateLimit_returns MemoryStore user_options mw Hmw)
    as (-> & _ & Hr & _).
  split; [reflexivity|]. cbn [mw_resetKey].
  destruct (resetKey (store_in_use MemoryStore
                        (Object_assign defaults user_options)))
    as [f|] eqn:Hf; [|discriminate].
  exists f. split; [reflexivity|]. intros key s.
  unfold store_resetKey. rewrite Hf. reflexivity.
Qed.

(** X10.  On a middleware returned by [RateLimit], a request that is
    not skipped and whose key resolves is counted exactly once: the
    first call is [store.incr] with the resolved key, and no other
    store call follows, whatever the store answers and however the
    threshold resolves. *)
Theorem returned_middleware_increments_once
    (user_options : list (Property S)) mw req next (s : State S) kv key :
  RateLimit MemoryStore user_options = returns mw →
  skip (Object_assign defaults user_options) req (res s) = returns false →
  keyGenerator (Object_assign defaults user_options) req (res s)
  = returns (key_value kv) →
  keyPromise kv = fulfilled key →
  ∃ rest, events (mw_call mw req next s) = StoreIncr key :: rest
          ∧ count_of is_store_call rest = 0%nat.
Proof.
  intros Hmw Hskip Hkg Hkp.
  destruct (RateLimit_returns MemoryStore user_options mw Hmw)
    as (-> & Hi & _). cbn [mw_call].
  set (o := Object_assign defaults user_options) in *.
  set (st := store_in_use MemoryStore o) in *.
  destruct (incr st) as [f|] eqn:Hf; [|discriminate].
  destruct (rateLimit_keyed o st req next s kv key f Hskip Hkg Hkp Hf)
    as [(e & c' & ->) | (c & rt & c' & Hp)].
  - eexists. split; reflexivity.
  - destruct (rateLimit_proceeds o st req next key c rt c' s Hp)
      as (_ & -> & _).
    eexists. split; [reflexivity|].
    apply count_of_none, callback_events_no_store_call.
Qed.

Lemma keyGenerator_not_assigned (ps : list (Property S)) : ∀ o : Options S,
  Forall (λ p, sets_keyGenerator p = false) ps →
  keyGenerator (Object_assign o ps) = keyGenerator o.
Proof.
  unfold Object_assign.
  induction ps as [|p ps IH]; intros o Hps; [reflexivity|].
  apply Forall_cons in Hps as [Hp Hps]. cbn [foldl].
  rewrite (IH _ Hps). destruct o, p; (reflexivity || discriminate).
Qed.

(** X11.  When the application passes no [keyGenerator], requests are
    counted under [req.ip]: the key of the increment of a request that
    is not skipped is its [ip]. *)
Theorem default_key_is_ip
    (user_options : list (Property S)) mw req next (s : State S) :
  RateLimit MemoryStore user_options = returns mw →
  Forall (λ p, sets_keyGenerator p = false) user_options →
  skip (Object_assign defaults user_options) req (res s) = returns false →
  ∃ rest, events (mw_call mw req next s) = StoreIncr (ip req) :: rest.
Proof.
  intros Hmw Hnone Hskip.
  assert (keyGenerator (Object_assign defaults user_options) req (res s)
          = returns (key_value (plain (ip req)))) as Hkg
    by (by rewrite keyGenerator_not_assigned).
  destruct (RateLimit_returns MemoryStore user_options mw Hmw)
    as (-> & Hi & _). cbn [mw_call].
  set (o := Object_assign defaults user_options) in *.
  set (st := store_in_use MemoryStore o) in *.
  destruct (incr st) as [f|] eqn:Hf; [|discriminate].
  destruct (rateLimit_keyed o st req next s (plain (ip req)) (ip req) f
              Hskip Hkg eq_refl Hf)
    as [(e & c' & ->) | (c & rt & c' & Hp)].
  - eexists. reflexivity.
  - destruct (rateLimit_proceeds o st req next (ip req) c rt c' s Hp)
      as (_ & -> & _).
    eexists. reflexivity.
Qed.

End Returned.

(** ** The response and the latch after a counted request *)

Section FinalState.
Context {S : Type}.
Variable options : Options S.
Variable the_store : Store S.

Lemma then_max_final next key c rt max (s : State S) :
  aborts options (res s) max = false →
  let r := then_max options next key c rt max s in
  res (final r) = res_after options (res s) max c
  ∧ decremented (final r)
    = (if skipFailedRequests options || skipSuccessfulRequests options
       then false else decremented s).
Proof.
  destruct s as [cn [hs sc fin] rli ls d ck].
  unfold aborts, then_max, res_after, answered, call_handler.
  cbn [res headersSent]. cbv zeta. cbn [remaining].
  rewrite (setHeader_defined "X-RateLimit-Remaining" _ (Math_max_defined _ _)).
  destruct (headers options), hs; cbn [andb negb]; intros Hab;
    rewrite ?(setHeader_defined "X-RateLimit-Limit" max Hab);
    destruct (truthy max && strict_eq (number c) (add max (number 1))),
      (truthy max && gt (number c) max), rt,
      (skipFailedRequests options), (skipSuccessfulRequests options),
      (handler options);
    lazy -[app Math_ceil_div Math_max sub];
    split; reflexivity.
Qed.

Lemma rateLimit_counted_final req next key c rt c' (s : State S) :
  Counted options the_store req s key c rt c' →
  let max := threshold_seen options req next (res s) in
  aborts options (res s) max = false →
  let r := rateLimit options the_store req next s in
  res (final r) = res_after options (res s) max c
  ∧ decremented (final r)
    = (if skipFailedRequests options || skipSuccessfulRequests options
       then false else decremented s).
Proof.
  intros (Hskip & (kv & Hkg & Hkp) & (f & Hf & Hincr)) max Hab r. subst max r.
  unfold threshold_seen in *.
  destruct (Promise_resolve (maxResult options req (res s))) as [v|e] eqn:E.
  - pose proof (then_max_final next key c rt v (set_contents c' s) Hab) as H.
    destruct (then_max options next key c rt v (set_contents c' s))
      as [[r1 s1] l1] eqn:Et.
    unfold rateLimit, store_incr, incr_callback, resolve_and_decide. run_M.
    rewrite Hskip, Hkg, Hkp, Hf. run_M. rewrite Hincr. run_M. rewrite E. run_M.
    rewrite Et. destruct r1; run_M; exact H.
  - pose proof (then_max_final next key c rt (next_returns next)
                  (set_contents c' s) Hab) as H.
    destruct (then_max options next key c rt (next_returns next)
                (set_contents c' s)) as [[r1 s1] l1] eqn:Et.
    unfold rateLimit, store_incr, incr_callback, resolve_and_decide. run_M.
    rewrite Hskip, Hkg, Hkp, Hf. run_M. rewrite Hincr. run_M. rewrite E. run_M.
    rewrite Et. destruct r1; run_M; exact H.
Qed.

End FinalState.

(** ** Skip accounting: which responses are un-counted *)

Lemma filter_none p (l : list Event) :
  count_of p l = 0%nat → List.filter p l = [].
Proof. unfold count_of. apply length_zero_iff_nil. Qed.

Lemma host_steps_cons {S} (the_store : Store S) h hs (s : State S) :
  host_steps the_store (h :: hs) s
  = match host_step the_store h s with
    | (Ok _, s1, l1) =>
        let '(r, s2, l2) := host_steps the_store hs s1 in (r, s2, l1 ++ l2)
    | (Raise e, s1, l1) => (Raise e, s1, l1)
    end.
Proof. reflexivity. Qed.

(** The run of [serve] on a counted request: the middleware, then the
    host. *)
Lemma serve_counted {S} (options : Options S) (the_store : Store S) a
    (s : State S) key c rt c' :
  Counted options the_store (request a) (new_request (at_time a) s) key c rt c' →
  let r1 := rateLimit options the_store (request a) (continuation a)
                      (new_request (at_time a) s) in
  serve options the_store a s
  = let '(r, s2, l2) := host_steps the_store (afterwards a) (final r1) in
    (r, s2, events r1 ++ l2).
Proof.
  intros Hc r1. subst r1.
  destruct (rateLimit_proceeds options the_store (request a) (continuation a)
              key c rt c' _ (Counted_Proceeds _ _ _ _ _ _ _ _ Hc)) as (Hres & _).
  unfold serve, mbind, M_bind, modify, result, final, events in *.
  destruct (rateLimit options the_store (request a) (continuation a)
              (new_request (at_time a) s)) as [[r1 s1] l1].
  cbn in *. subst r1.
  destruct (host_steps the_store (afterwards a) s1) as [[r2 s2] l2].
  reflexivity.
Qed.

(** A counted request on which line 87 throws has no listener: nothing
    the response does afterwards reaches the store. *)
Lemma serve_aborted {S} (options : Options S) (the_store : Store S) a
    (s : State S) key c rt c' :
  Counted options the_store (request a) (new_request (at_time a) s) key c rt c' →
  aborts options fresh_res
         (threshold_seen options (request a) (continuation a) fresh_res) = true →
  let r := serve options the_store a s in
  result r = Ok tt
  ∧ List.filter is_decrement (events r) = []
  ∧ contents (final r) = c'.
Proof.
  intros Hc Hab r. subst r.
  pose proof (rateLimit_counted_aborted options the_store (request a)
                (continuation a) key c rt c' (new_request (at_time a) s) Hc Hab)
    as Hrun.
  destruct (host_steps_inert the_store (afterwards a)
              (set_rateLimitInfo
                 (verdict (threshold_seen options (request a) (continuation a)
                             fresh_res) c rt)
                 (set_contents c' (new_request (at_time a) s))) eq_refl)
    as (s' & Hs' & Hcn & _).
  unfold serve, mbind, M_bind, modify, result, events, final.
  cbn [res new_request] in Hrun. rewrite Hrun, Hs'. cbn [fst snd].
  split; [reflexivity|]. split; [|exact Hcn].
  rewrite app_nil_r. apply filter_none, count_of_none.
  constructor; [reflexivity|]. apply Forall_app. split.
  - apply List.Forall_forall. intros e He.
    by apply resolution_events_next in He as [err ->].
  - repeat constructor.
Qed.

Section FailedMode.
Context {S : Type}.
Variable options : Options S.
Variable the_store : Store S.
Hypothesis failed_only :
  skipFailedRequests options = true ∧ skipSuccessfulRequests options = false.

(** The state after a counted request in this mode. *)
Lemma failed_mode_after_rateLimit a (s : State S) key c rt c' :
  Counted options the_store (request a) (new_request (at_time a) s) key c rt c' →
  aborts options fresh_res
         (threshold_seen options (request a) (continuation a) fresh_res) = false →
  let s1 := final (rateLimit options the_store (request a) (continuation a)
                             (new_request (at_time a) s)) in
  listeners s1 = [(finish, failed_on_finish key); (close, failed_on_close key);
                  (error, failed_on_error key)]
  ∧ decremented s1 = false
  ∧ count_of is_decrement
      (events (rateLimit options the_store (request a) (continuation a)
                         (new_request (at_time a) s))) = 0%nat.
Proof.
  intros Hc Hab s1. subst s1. destruct failed_only as [Hsf Hss].
  destruct (rateLimit_counted options the_store (request a) (continuation a)
              key c rt c' _ Hc Hab) as (_ & _ & _ & _ & Hl & _).
  destruct (rateLimit_counted_final options the_store (request a)
              (continuation a) key c rt c' _ Hc Hab) as (_ & Hd).
  destruct (rateLimit_registers_latched options the_store (request a)
              (continuation a) (new_request (at_time a) s) Hss eq_refl)
    as (Hnone & _).
  rewrite Hl, Hd. unfold registered. rewrite Hsf, Hss. auto.
Qed.

(** [finish] on a failed response whose latch is open. *)
Lemma emit_finish_on_failure (s : State S) key f :
  listeners s = [(finish, failed_on_finish key); (close, failed_on_close key);
                 (error, failed_on_error key)] →
  decremented s = false →
  400 ≤ statusCode (res s) →
  decrement the_store = Some f →
  res_emit the_store finish s
  = (Ok tt, set_decremented true (set_contents (f key (contents s)) s),
     [StoreDecrement key]).
Proof.
  intros Hl Hd Hst Hf. destruct s as [cn rs rli ls d ck]. cbn in *. subst.
  assert ((400 <=? statusCode rs) = true) as Hle by (apply Z.leb_le; lia).
  unfold res_emit. run_M. repeat (case_bool_decide; try done).
  repeat (progress (unfold run_listener, decrementKey, store_decrement; run_M;
                    rewrite ?Hle, ?Hf)).
  reflexivity.
Qed.

(** [finish] and [close] on a response that ended below 400. *)
Lemma emit_on_success (s : State S) key h :
  listeners s = [(finish, failed_on_finish key); (close, failed_on_close key);
                 (error, failed_on_error key)] →
  statusCode (res s) < 400 → finished (res s) = true →
  finish_or_close h →
  host_step the_store h s = (Ok tt, s, []).
Proof.
  intros Hl Hst Hfin Hh. destruct s as [cn rs rli ls d ck]. cbn in *. subst.
  assert ((400 <=? statusCode rs) = false) as Hle by (apply Z.leb_gt; lia).
  destruct Hh as [-> | ->]; cbn [host_step]; unfold res_emit; run_M;
    repeat (case_bool_decide; try done);
    repeat (progress (unfold run_listener; run_M; rewrite ?Hle, ?Hfin));
    reflexivity.
Qed.

(** Once the latch is closed the host steps un-count nothing. *)
Lemma closed_latch_no_decrement hs (s : State S) :
  all_latched s → decremented s = true →
  count_of is_decrement (events (host_steps the_store hs s)) = 0%nat.
Proof.
  intros Hlat Hd.
  destruct (Latched_host_steps the_store hs s Hlat) as [_ Hle].
  unfold budget in Hle. rewrite Hd in Hle. lia.
Qed.

(** X12.  With [skipFailedRequests] (and without
    [skipSuccessfulRequests]), a counted request whose response is
    ended with a status of 400 or more and emits [finish] is un-counted
    exactly once, under its key, whatever the response emits after
    that.  The one exception is a request on which line 87 threw
    ([max] undefined, headers to be written): no listener was
    registered for it and it stays counted. *)
Theorem failed_response_uncounted_once a (s : State S) key c rt c' f
    status more :
  Counted options the_store (request a) (new_request (at_time a) s) key c rt c' →
  decrement the_store = Some f →
  afterwards a = host_end status :: host_emit finish :: more →
  400 ≤ status →
  List.filter is_decrement (events (serve options the_store a s))
  = if aborts options fresh_res
         (threshold_seen options (request a) (continuation a) fresh_res)
    then [] else [StoreDecrement key].
Proof.
  intros Hc Hf Hafter Hst.
  destruct (aborts options fresh_res
              (threshold_seen options (request a) (continuation a) fresh_res))
    eqn:Hab.
  { by destruct (serve_aborted options the_store a s key c rt c' Hc Hab)
      as (_ & -> & _). }
  destruct (failed_mode_after_rateLimit a s key c rt c' Hc Hab)
    as (Hl & Hd & Hnone).
  rewrite (serve_counted options the_store a s key c rt c' Hc). cbv zeta.
  set (r1 := rateLimit options the_store (request a) (continuation a)
                       (new_request (at_time a) s)) in *.
  rewrite Hafter, host_steps_cons. cbn [host_step]. unfold modify.
  rewrite host_steps_cons. cbn [host_step].
  rewrite (emit_finish_on_failure
             (set_res {| headersSent := true; statusCode := status;
                         finished := true |} (final r1))
             key f Hl Hd Hst Hf).
  set (s3 := set_decremented true _).
  pose proof (closed_latch_no_decrement more s3) as Hmore.
  destruct (host_steps the_store more s3) as [[r2 s2] l2].
  unfold events in *. cbn [fst snd app] in *.
  rewrite List.filter_app, (filter_none _ _ Hnone). cbn [app List.filter is_decrement].
  rewrite (filter_none is_decrement l2); [reflexivity|].
  apply Hmore; [|reflexivity].
  unfold all_latched. subst s3. cbn. rewrite Hl. repeat constructor.
Qed.

(** X13.  In the same mode a response that is ended with a status
    below 400 stays counted: [finish] and [close], however often they
    are emitted, un-count nothing and the store keeps the contents the
    increment left. *)
Theorem successful_response_stays_counted a (s : State S) key c rt c'
    status rest :
  Counted options the_store (request a) (new_request (at_time a) s) key c rt c' →
  afterwards a = host_end status :: rest →
  status < 400 →
  Forall finish_or_close rest →
  let r := serve options the_store a s in
  count_of is_decrement (events r) = 0%nat
  ∧ contents (final r) = c'.
Proof.
  intros Hc Hafter Hst Hrest r. subst r.
  destruct (aborts options fresh_res
              (threshold_seen options (request a) (continuation a) fresh_res))
    eqn:Hab.
  { destruct (serve_aborted options the_store a s key c rt c' Hc Hab)
      as (_ & Hnone & Hcont).
    split; [|exact Hcont]. unfold count_of. by rewrite Hnone. }
  destruct (failed_mode_after_rateLimit a s key c rt c' Hc Hab)
    as (Hl & Hd & Hnone).
  destruct (rateLimit_counted options the_store (request a) (continuation a)
              key c rt c' _ Hc Hab) as (_ & _ & _ & Hcont & _).
  rewrite (serve_counted options the_store a s key c rt c' Hc). cbv zeta.
  set (r1 := rateLimit options the_store (request a) (continuation a)
                       (new_request (at_time a) s)) in *.
  rewrite Hafter, host_steps_cons. cbn [host_step]. unfold modify.
  set (s2 := set_res _ (final r1)).
  assert (host_steps the_store rest s2 = (Ok tt, s2, [])) as ->.
  { assert (listeners s2 = [(finish, failed_on_finish key);
                            (close, failed_on_close key);
                            (error, failed_on_error key)]) as Hl2 by exact Hl.
    assert (statusCode (res s2) < 400) as Hst2 by exact Hst.
    assert (finished (res s2) = true) as Hfin2 by reflexivity.
    clearbody s2. clear Hafter. induction Hrest as [|h rest Hh _ IH]; [reflexivity|].
    rewrite host_steps_cons, (emit_on_success s2 key h Hl2 Hst2 Hfin2 Hh), IH.
    reflexivity. }
  unfold events, final. cbn [fst snd app]. rewrite app_nil_r.
  split; [exact Hnone | exact Hcont].
Qed.

(** X14.  In the same mode a request blocked through the default
    handler is un-counted when its response finishes, provided the
    status the handler sends is 400 or more (429 by default): blocked
    requests do not add to the count. *)
Theorem blocked_request_uncounted a (s : State S) key c rt c' f T more :
  Counted options the_store (request a) (new_request (at_time a) s) key c rt c' →
  Promise_resolve (maxResult options (request a) fresh_res)
  = fulfilled (number T) →
  0 < T → T < c →
  handler options = default_handler →
  400 ≤ optStatusCode options →
  decrement the_store = Some f →
  afterwards a = host_emit finish :: more →
  List.filter is_decrement (events (serve options the_store a s))
  = [StoreDecrement key].
Proof.
  intros Hc Hmax HT Hover Hh Hcode Hf Hafter.
  destruct (number_threshold_never_aborts options (request a) (continuation a)
              fresh_res T Hmax) as (Hth & _ & Hab).
  destruct (failed_mode_after_rateLimit a s key c rt c' Hc Hab)
    as (Hl & Hd & Hnone).
  destruct (rateLimit_counted_final options the_store (request a)
              (continuation a) key c rt c' _ Hc Hab) as (Hres & _).
  unfold res_after in Hres. cbn [res new_request] in Hres.
  rewrite Hth, (over_guard_positive T c HT), Hh in Hres.
  destruct (Z.ltb_spec T c); [|lia].
  rewrite (serve_counted options the_store a s key c rt c' Hc). cbv zeta.
  set (r1 := rateLimit options the_store (request a) (continuation a)
                       (new_request (at_time a) s)) in *.
  rewrite Hafter, host_steps_cons. cbn [host_step].
  assert (400 ≤ statusCode (res (final r1))) as Hst by (by rewrite Hres).
  rewrite (emit_finish_on_failure _ key f Hl Hd Hst Hf).
  set (s3 := set_decremented true _).
  pose proof (closed_latch_no_decrement more s3) as Hmore.
  destruct (host_steps the_store more s3) as [[r2 s2] l2].
  unfold events in *. cbn [fst snd app] in *.
  rewrite List.filter_app, (filter_none _ _ Hnone). cbn [app List.filter is_decrement].
  rewrite (filter_none is_decrement l2); [reflexivity|].
  apply Hmore; [|reflexivity].
  unfold all_latched. subst s3. cbn. rewrite Hl. repeat constructor.
Qed.

End FailedMode.

Section SuccessfulMode.
Context {S : Type}.
Variable options : Options S.
Variable the_store : Store S.
Hypothesis successful_only :
  skipFailedRequests options = false ∧ skipSuccessfulRequests options = true.

Lemma emit_finish_successful_mode (s : State S) key f :
  listeners s = [(finish, successful_on_finish key)] →
  decrement the_store = Some f →
  res_emit the_store finish s
  = if statusCode (res s) <? 400
    then (Ok tt, set_contents (f key (contents s)) s, [StoreDecrement key])
    else (Ok tt, s, []).
Proof.
  intros Hl Hf. destruct s as [cn rs rli ls d ck]. cbn in *. subst.
  unfold res_emit. run_M. repeat (case_bool_decide; try done).
  destruct (statusCode rs <? 400) eqn:E;
    repeat (progress (unfold run_listener, store_decrement; run_M;
                      rewrite ?E, ?Hf));
    reflexivity.
Qed.

Lemma emit_other_successful_mode (s : State S) key h :
  listeners s = [(finish, successful_on_finish key)] →
  close_or_error h →
  host_step the_store h s = (Ok tt, s, []).
Proof.
  intros Hl [-> | ->]; destruct s as [cn rs rli ls d ck]; cbn in *; subst;
    unfold res_emit; run_M; repeat (case_bool_decide; try done).
Qed.

(** X15.  With [skipSuccessfulRequests] alone, a counted request is
    un-counted when its response finishes with a status below 400 and
    stays counted when it finishes with 400 or more; [close] and
    [error] un-count nothing.  A request on which line 87 threw
    ([max] undefined, headers to be written) has no listener and
    stays counted whatever its status. *)
Theorem successful_mode_uncounts_on_finish a (s : State S) key c rt c' f
    status rest :
  Counted options the_store (request a) (new_request (at_time a) s) key c rt c' →
  decrement the_store = Some f →
  afterwards a = host_end status :: host_emit finish :: rest →
  Forall close_or_error rest →
  let r := serve options the_store a s in
  let uncounted :=
    (status <? 400)
    && negb (aborts options fresh_res
               (threshold_seen options (request a) (continuation a) fresh_res)) in
  List.filter is_decrement (events r)
  = (if uncounted then [StoreDecrement key] else [])
  ∧ contents (final r) = (if uncounted then f key c' else c').
Proof.
  intros Hc Hf Hafter Hrest r uncounted. subst r uncounted.
  destruct successful_only as [Hsf Hss].
  destruct (aborts options fresh_res
              (threshold_seen options (request a) (continuation a) fresh_res))
    eqn:Hab.
  { rewrite andb_false_r.
    by destruct (serve_aborted options the_store a s key c rt c' Hc Hab)
      as (_ & -> & ->). }
  rewrite andb_true_r.
  destruct (rateLimit_counted options the_store (request a) (continuation a)
              key c rt c' _ Hc Hab) as (_ & _ & _ & Hcont & Hl & _).
  unfold registered in Hl. rewrite Hsf, Hss in Hl. cbn in Hl.
  assert (count_of is_decrement
            (events (rateLimit options the_store (request a) (continuation a)
                               (new_request (at_time a) s))) = 0%nat) as Hnone.
  { destruct (rateLimit_counted options the_store (request a) (continuation a)
                key c rt c' _ Hc Hab) as (_ & -> & _).
    apply count_of_none. constructor; [reflexivity|]. apply Forall_app. split.
    - unfold resolution_events.
      destruct (Promise_resolve _); repeat constructor.
    - constructor; [reflexivity | apply after_verdict_no_decrement]. }
  rewrite (serve_counted options the_store a s key c rt c' Hc). cbv zeta.
  set (r1 := rateLimit options the_store (request a) (continuation a)
                       (new_request (at_time a) s)) in *.
  rewrite Hafter, host_steps_cons. cbn [host_step]. unfold modify.
  rewrite host_steps_cons. cbn [host_step].
  rewrite (emit_finish_successful_mode
             (set_res {| headersSent := true; statusCode := status;
                         finished := true |} (final r1)) key f Hl Hf).
  cbn [res set_res statusCode contents].
  assert (∀ s2 : State S, listeners s2 = [(finish, successful_on_finish key)] →
            host_steps the_store rest s2 = (Ok tt, s2, [])) as Hquiet.
  { clear Hafter. induction Hrest as [|h rest Hh _ IH]; intros s2 Hl2;
      [reflexivity|].
    rewrite host_steps_cons, (emit_other_successful_mode s2 key h Hl2 Hh), IH;
      done. }
  apply filter_none in Hnone. unfold events, final in *.
  destruct (status <? 400); rewrite Hquiet by exact Hl;
    cbn [fst snd app contents set_contents set_res];
    rewrite List.filter_app, Hnone, Hcont; split; reflexivity.
Qed.

End SuccessfulMode.

(** ** A validated store is enough for the failed mode *)

Section Quiet.
Context {S : Type}.
Variable the_store : Store S.
Variable decrement_f : string → S → S.
Hypothesis has_decrement : decrement the_store = Some decrement_f.

Lemma Quiet_bind {A B} (m : M S A) (f : A → M S B) :
  Quiet m → (∀ a, Quiet (f a)) → Quiet (m ≫= f).
Proof.
  intros Hm Hf s Hs. specialize (Hm s Hs).
  unfold mbind, M_bind, final, result in *.
  destruct (m s) as [[[a|e] s1] l1]; cbn [fst snd] in *.
  - destruct Hm as [Hm1 _].
    assert (all_latched s1) as Hs1 by (unfold all_latched; by rewrite Hm1).
    specialize (Hf a s1 Hs1). unfold final, result in Hf.
    destruct (f a s1) as [[r2 s2] l2]. cbn [fst snd] in *.
    destruct Hf as [Hf1 Hf2]. split; [congruence | exact Hf2].
  - destruct Hm as [_ [a Ha]]. discriminate.
Qed.

Lemma Quiet_ret {A} (a : A) : Quiet (mret a : M S A).
Proof. intros s _. cbn. eauto. Qed.

Lemma Quiet_when b (m : M S unit) : Quiet m → Quiet (when b m).
Proof. destruct b; [done | intros _; apply Quiet_ret]. Qed.

Lemma Quiet_decrementKey key : Quiet (decrementKey the_store key).
Proof.
  intros s _. unfold decrementKey, store_decrement. rewrite has_decrement.
  destruct s as [cn rs rli ls d ck]. destruct d; cbn; eauto.
Qed.

Lemma Quiet_run_listener l :
  latched l = true → Quiet (run_listener the_store l).
Proof.
  intros Hl. unfold run_listener. apply Quiet_bind.
  - intros s _. cbn. eauto.
  - intros rs. destruct l; try discriminate;
      try apply Quiet_when; apply Quiet_decrementKey.
Qed.

Lemma Quiet_run_listeners ls :
  Forall (λ l, latched l = true) ls → Quiet (run_listeners the_store ls).
Proof.
  induction 1 as [|l ls Hl _ IH]; [apply Quiet_ret|].
  cbn [run_listeners]. apply Quiet_bind; [by apply Quiet_run_listener|].
  intros _. exact IH.
Qed.

Lemma Quiet_res_emit sig : Quiet (res_emit the_store sig).
Proof.
  intros s Hs.
  assert (Quiet (run_listeners the_store
            (map snd (List.filter (λ p : Signal * Listener, bool_decide (p.1 = sig))
                                  (listeners s))))) as H.
  { apply Quiet_run_listeners. apply Forall_map.
    unfold all_latched in Hs. rewrite List.Forall_forall in *.
    intros p Hp. apply List.filter_In in Hp as [Hp _]. by apply Hs. }
  specialize (H s Hs). unfold res_emit, mbind, M_bind, gets, final, result in *.
  cbn [fst snd] in *.
  destruct (run_listeners _ _ s) as [[r1 s1] l1]. exact H.
Qed.

Lemma Quiet_host_steps hs : Quiet (host_steps the_store hs).
Proof.
  induction hs as [|h hs IH]; [apply Quiet_ret|].
  cbn [host_steps]. apply Quiet_bind; [|intros _; exact IH].
  destruct h as [status|sig]; [|apply Quiet_res_emit].
  intros s _. cbn. eauto.
Qed.

End Quiet.

Lemma after_verdict_no_unhandled {S} (options : Options S) rs key max c rt now :
  Forall (λ e, is_unhandled e = false)
         (after_verdict options rs key max c rt now).
Proof.
  unfold after_verdict, header_events, registered, notification_events,
    decision_events.
  destruct (headers options), (headersSent rs), rt,
    (skipFailedRequests options), (skipSuccessfulRequests options),
    (truthy max && strict_eq (number c) (add max (number 1))),
    (truthy max && gt (number c) max), (handler options);
    cbn; repeat constructor.
Qed.

(** Unless line 87 throws, no promise of the middleware ends in an
    unhandled rejection. *)
Lemma rateLimit_no_unhandled {S} (options : Options S) (the_store : Store S)
    req next (s : State S) :
  aborts options (res s) (threshold_seen options req next (res s)) = false →
  count_of is_unhandled (events (rateLimit options the_store req next s))
  = 0%nat.
Proof.
  intros Hab.
  destruct (rateLimit_paths options the_store req next s)
    as [-> | [(e' & He & ->) | [(e' & ->) | [(key & e' & c' & ->)
       | (key & c & rt & c' & Hp)]]]]; try reflexivity.
  destruct (rateLimit_proceeds options the_store req next key c rt c' s Hp)
    as (_ & -> & _).
  unfold callback_events. rewrite Hab.
  apply count_of_none. constructor; [reflexivity|]. apply Forall_app. split.
  - apply List.Forall_forall. intros e He.
    by apply resolution_events_next in He as [err ->].
  - constructor; [reflexivity | apply after_verdict_no_unhandled].
Qed.

(** X16.  With a middleware returned by [RateLimit] and without
    [skipSuccessfulRequests], serving a request on which [skip]
    returns and, when the request is not skipped, [keyGenerator]
    returns a key or a promise of a key, never throws, whatever the
    store answers and whatever the response emits afterwards: the store
    methods the listeners need were checked by the constructor.
    Unless line 87 throws ([max] undefined, headers to be written), no
    promise of the middleware ends in an unhandled rejection either. *)
Theorem validated_failed_mode_never_throws
    {S} (MemoryStore : Z → Store S) (user_options : list (Property S)) mw a
    (s : State S) skipped kv :
  let options := Object_assign defaults user_options in
  let st := store_in_use MemoryStore options in
  RateLimit MemoryStore user_options = returns mw →
  skipSuccessfulRequests options = false →
  skip options (request a) fresh_res = returns skipped →
  (skipped = false →
   keyGenerator options (request a) fresh_res = returns (key_value kv)) →
  result (serve options st a s) = Ok tt
  ∧ (aborts options fresh_res
       (threshold_seen options (request a) (continuation a) fresh_res) = false →
     count_of is_unhandled
       (events (rateLimit options st (request a) (continuation a)
                          (new_request (at_time a) s))) = 0%nat).
Proof.
  intros options st Hmw Hss Hskip Hkg.
  split;
    [|exact (rateLimit_no_unhandled options st (request a) (continuation a)
               (new_request (at_time a) s))].
  destruct (RateLimit_returns MemoryStore user_options mw Hmw)
    as (_ & _ & _ & Hd). fold options st in Hd.
  pose proof (rateLimit_registers_latched options st (request a)
                (continuation a) (new_request (at_time a) s) Hss eq_refl)
    as [_ Hlat].
  pose proof (rateLimit_listeners options st (request a) (continuation a)
                (new_request (at_time a) s) eq_refl) as Hl.
  destruct (rateLimit_result options st (request a) (continuation a)
              (new_request (at_time a) s)) as [Hok | (e & Hesc & _)].
  2:{ cbn [res new_request] in Hesc.
      destruct Hesc as [Hs | (Hs & [Hk | (t & Hk & _)])].
      - congruence.
      - assert (skipped = false) as Hns by congruence.
        specialize (Hkg Hns). congruence.
      - assert (skipped = false) as Hns by congruence.
        specialize (Hkg Hns). congruence. }
  unfold serve, mbind, M_bind, modify, result, final in *. cbn [fst snd] in *.
  destruct (rateLimit options st (request a) (continuation a)
              (new_request (at_time a) s)) as [[r1 s1] l1]. cbn [fst snd] in *.
  subst r1.
  assert (∃ u, (host_steps st (afterwards a) s1).1.1 = Ok u) as [[] Hu].
  { destruct (skipFailedRequests options) eqn:Hsf.
    - destruct (decrement st) as [f|] eqn:Hf; [|by specialize (Hd eq_refl)].
      by destruct (Quiet_host_steps st f Hf (afterwards a) s1 Hlat).
    - assert (listeners s1 = []) as Hnil.
      { destruct Hl as [Hl | [key Hl]]; [done|].
        rewrite Hl. unfold registered. by rewrite Hsf, Hss. }
      destruct (host_steps_inert st (afterwards a) s1 Hnil) as (s' & -> & _).
      by exists tt. }
  destruct (host_steps st (afterwards a) s1) as [[r2 s2] l2]. exact Hu.
Qed.

(** ** No skip option, no listener *)

(** X17.  When neither skip option is set, the middleware registers no
    listener on the response, and nothing the response does afterwards
    un-counts the request: the events of a served request are those of
    the middleware. *)
Theorem no_skip_option_no_listener
    {S} (options : Options S) (the_store : Store S) a (s : State S) :
  skipFailedRequests options = false →
  skipSuccessfulRequests options = false →
  let r := serve options the_store a s in
  events r = events (rateLimit options the_store (request a) (continuation a)
                               (new_request (at_time a) s))
  ∧ count_of is_res_on (events r) = 0%nat
  ∧ count_of is_decrement (events r) = 0%nat
  ∧ listeners (final r) = [].
Proof.
  intros Hsf Hss r. subst r.
  pose proof (rateLimit_registers_latched options the_store (request a)
                (continuation a) (new_request (at_time a) s) Hss eq_refl)
    as [Hnone _].
  assert (listeners (final (rateLimit options the_store (request a)
                              (continuation a) (new_request (at_time a) s)))
          = []) as Hnil.
  { destruct (rateLimit_listeners options the_store (request a) (continuation a)
                (new_request (at_time a) s) eq_refl) as [Hl | [key Hl]]; [done|].
    rewrite Hl. unfold registered. by rewrite Hsf, Hss. }
  assert (count_of is_res_on
            (events (rateLimit options the_store (request a) (continuation a)
                               (new_request (at_time a) s))) = 0%nat) as Hon.
  { destruct (rateLimit_paths options the_store (request a) (continuation a)
                (new_request (at_time a) s))
      as [-> | [(e' & Hkg & ->) | [(e' & ->) | [(key & e' & c' & ->)
         | (key & c & rt & c' & Hp)]]]]; try reflexivity.
    destruct (rateLimit_proceeds options the_store (request a) (continuation a)
                key c rt c' _ Hp) as (_ & -> & _).
    unfold callback_events, after_verdict, header_events, registered,
      notification_events, decision_events, resolution_events.
    rewrite Hsf, Hss.
    destruct (aborts _ _ _); [by destruct (Promise_resolve _)|].
    destruct (Promise_resolve _), (headers options), (headersSent _), rt,
      (truthy _ && strict_eq _ _), (truthy _ && gt _ _), (handler options);
      reflexivity. }
  unfold serve, mbind, M_bind, modify, events, final in *. cbn [fst snd] in *.
  destruct (rateLimit options the_store (request a) (continuation a)
              (new_request (at_time a) s)) as [[[[]|e] s1] l1];
    cbn [fst snd] in *.
  - destruct (host_steps_inert the_store (afterwards a) s1 Hnil)
      as (s' & Hs' & _).
    assert (listeners (host_steps the_store (afterwards a) s1).1.2 = []) as Hl'.
    { destruct (Latched_host_steps the_store (afterwards a) s1) as [Hsame _].
      - unfold all_latched. rewrite Hnil. constructor.
      - unfold final in Hsame. by rewrite Hsame. }
    rewrite Hs' in *. cbn [fst snd] in *. rewrite app_nil_r. auto.
  - auto.
Qed.

(** ** The notification and the handler *)

(** The guard of line 136 implies the guard of line 140, when the
    threshold is not a number beyond the safe integers. *)
Lemma edge_implies_over v c :
  (∀ T, v = number T → Z.abs T ≤ MAX_SAFE_INTEGER) →
  truthy v && strict_eq (number c) (add v (number 1)) = true →
  truthy v && gt (number c) v = true.
Proof.
  intros Hsafe. destruct v as [| |[]|n|]; cbn; try discriminate.
  - intros H. apply Z.eqb_eq in H. subst c. reflexivity.
  - specialize (Hsafe n eq_refl). unfold MAX_SAFE_INTEGER in Hsafe.
    rewrite to_double_safe by lia.
    destruct (n =? 0); cbn; [discriminate|].
    intros H. apply Z.eqb_eq in H. apply Z.ltb_lt. lia.
Qed.

(** X18.  On every run the handler is invoked at most once.  When the
    threshold is not a number beyond the safe integers (in absolute
    value at most 2^53 - 1), [onLimitReached] is invoked only on a
    request that is also handed to the handler: a request that is let
    through never notifies. *)
Theorem notification_only_when_blocked
    {S} (options : Options S) (the_store : Store S) req next (s : State S) :
  let evs := events (rateLimit options the_store req next s) in
  (count_of is_handler evs ≤ 1)%nat
  ∧ ((∀ T, threshold_seen options req next (res s) = number T →
           Z.abs T ≤ MAX_SAFE_INTEGER) →
     (count_of is_limit_reached evs ≤ count_of is_handler evs)%nat).
Proof.
  intros evs. subst evs.
  destruct (rateLimit_paths options the_store req next s)
    as [-> | [(e' & Hkg & ->) | [(e' & ->) | [(key & e' & c' & ->)
       | (key & c & rt & c' & Hp)]]]]; try (cbn; split; intros; lia).
  destruct (rateLimit_proceeds options the_store req next key c rt c' s Hp)
    as (_ & -> & _).
  pose proof (edge_implies_over (threshold_seen options req next (res s)) c)
    as Himp.
  unfold callback_events, after_verdict, header_events, registered,
    notification_events, decision_events, resolution_events.
  destruct (aborts _ _ _).
  { destruct (Promise_resolve _); cbn; split; intros; lia. }
  split; [|intros Hsafe; specialize (Himp Hsafe)];
    (destruct (truthy (threshold_seen options req next (res s))
               && strict_eq (number c)
                    (add (threshold_seen options req next (res s)) (number 1)));
     [try rewrite (Himp eq_refl)|]);
    destruct (Promise_resolve _), (headers options), (headersSent _), rt,
      (skipFailedRequests options), (skipSuccessfulRequests options),
      (handler options);
    try destruct (truthy _ && gt _ _); cbn; lia.
Qed.

(** The bound is needed: at [max = 2^53] the sum [max + 1] is [max]
    again, and the request whose count is [max] notifies although it is
    let through. *)
Lemma notification_without_block_beyond_safe_integers :
  let options := with_options [p_max (max_value (plain (number (2 ^ 53))))] in
  let evs := events (rateLimit options (MemoryStore 60000) client express_next
                               (mkState (one_hit (2 ^ 53 - 1) 60000) fresh_res
                                        None [] false 59000)) in
  attached evs = [verdict (number (2 ^ 53)) (2 ^ 53) (Some 60000)]
  ∧ count_of is_limit_reached evs = 1%nat
  ∧ count_of is_handler evs = 0%nat
  ∧ count_of is_next evs = 1%nat.
Proof. vm_compute. repeat split; reflexivity. Qed.


(** ** Concrete runs of the properties above *)

Lemma returned_resetKey_is_the_stores_witness :
  RateLimit MemoryStore []
  = returns {| mw_call := rateLimit (with_options []) (MemoryStore 60000);
               mw_resetKey := store_resetKey (MemoryStore 60000);
               mw_resetIp := store_resetKey (MemoryStore 60000) |}
  ∧ ∃ f, resetKey (store_in_use MemoryStore (Object_assign defaults []))
         = Some f
         ∧ ∀ key (s : State Hits),
             store_resetKey (MemoryStore 60000) key s
             = (Ok tt, set_contents (f key (contents s)) s, [StoreResetKey key]).
Proof.
  split; [reflexivity|].
  apply (returned_resetKey_is_the_stores MemoryStore []
           {| mw_call := rateLimit (with_options []) (MemoryStore 60000);
              mw_resetKey := store_resetKey (MemoryStore 60000);
              mw_resetIp := store_resetKey (MemoryStore 60000) |}).
  reflexivity.
Defined.

Lemma returned_middleware_increments_once_witness :
  RateLimit MemoryStore []
  = returns {| mw_call := rateLimit (with_options []) (MemoryStore 60000);
               mw_resetKey := store_resetKey (MemoryStore 60000);
               mw_resetIp := store_resetKey (MemoryStore 60000) |}
  ∧ ∃ rest, events (rateLimit (with_options []) (MemoryStore 60000) client
                              express_next late_in_window)
            = StoreIncr "10.0.0.1" :: rest
            ∧ count_of is_store_call rest = 0%nat.
Proof.
  split; [reflexivity|].
  apply (returned_middleware_increments_once MemoryStore []
           {| mw_call := rateLimit (with_options []) (MemoryStore 60000);
              mw_resetKey := store_resetKey (MemoryStore 60000);
              mw_resetIp := store_resetKey (MemoryStore 60000) |}
           client express_next late_in_window (plain "10.0.0.1") "10.0.0.1");
    reflexivity.
Defined.

Lemma default_key_is_ip_witness :
  Forall (λ p : Property Hits, sets_keyGenerator p = false)
         [p_max (max_value (plain (number 2)))]
  ∧ ∃ rest,
      events (rateLimit (with_options [p_max (max_value (plain (number 2)))])
                        (MemoryStore 60000) client express_next
                        (initial_state ∅))
      = StoreIncr (ip client) :: rest.
Proof.
  assert (Forall (λ p : Property Hits, sets_keyGenerator p = false)
                 [p_max (max_value (plain (number 2)))]) as Hnone
    by (repeat constructor).
  split; [exact Hnone|].
  apply (default_key_is_ip MemoryStore [p_max (max_value (plain (number 2)))]
           {| mw_call := rateLimit
                           (with_options [p_max (max_value (plain (number 2)))])
                           (MemoryStore 60000);
              mw_resetKey := store_resetKey (MemoryStore 60000);
              mw_resetIp := store_resetKey (MemoryStore 60000) |}
           client express_next (initial_state ∅)).
  - reflexivity.
  - exact Hnone.
  - reflexivity.
Defined.

Lemma failed_response_uncounted_once_witness :
  (skipFailedRequests (with_options [p_skipFailedRequests true]) = true
   ∧ skipSuccessfulRequests (with_options [p_skipFailedRequests true]) = false)
  ∧ 400 ≤ 500
  ∧ List.filter is_decrement
      (events (serve (with_options [p_skipFailedRequests true])
                     (MemoryStore 60000) failing_response (initial_state ∅)))
    = [StoreDecrement "10.0.0.1"].
Proof.
  split; [split; reflexivity|]. split; [lia|].
  apply (failed_response_uncounted_once
           (with_options [p_skipFailedRequests true]) (MemoryStore 60000)
           (conj eq_refl eq_refl) failing_response (initial_state ∅)
           "10.0.0.1" 1 (Some 60000) (one_hit 1 60000) memory_decrement 500
           [host_emit close; host_emit error]).
  - eapply Counted_intro; reflexivity.
  - reflexivity.
  - reflexivity.
  - lia.
Defined.

Lemma successful_response_stays_counted_witness :
  200 < 400
  ∧ Forall finish_or_close [host_emit finish; host_emit close]
  ∧ (let r := serve (with_options [p_skipFailedRequests true])
                    (MemoryStore 60000) successful_response (initial_state ∅) in
     count_of is_decrement (events r) = 0%nat
     ∧ contents (final r) = one_hit 1 60000).
Proof.
  assert (Forall finish_or_close [host_emit finish; host_emit close]) as Hrest.
  { apply Forall_cons. split; [by left|].
    apply Forall_cons. split; [by right | apply Forall_nil_2]. }
  split; [lia|]. split; [exact Hrest|].
  apply (successful_response_stays_counted
           (with_options [p_skipFailedRequests true]) (MemoryStore 60000)
           (conj eq_refl eq_refl) successful_response (initial_state ∅)
           "10.0.0.1" 1 (Some 60000) (one_hit 1 60000) 200
           [host_emit finish; host_emit close]).
  - eapply Counted_intro; reflexivity.
  - reflexivity.
  - lia.
  - exact Hrest.
Defined.

Lemma blocked_request_uncounted_witness :
  0 < 5 ∧ 5 < 6
  ∧ 400 ≤ optStatusCode (with_options [p_skipFailedRequests true])
  ∧ List.filter is_decrement
      (events (serve (with_options [p_skipFailedRequests true])
                     (MemoryStore 60000) late_hit late_in_window))
    = [StoreDecrement "10.0.0.1"].
Proof.
  split; [lia|]. split; [lia|]. split; [cbn; lia|].
  apply (blocked_request_uncounted
           (with_options [p_skipFailedRequests true]) (MemoryStore 60000)
           (conj eq_refl eq_refl) late_hit late_in_window
           "10.0.0.1" 6 (Some 60000) (one_hit 6 60000) memory_decrement 5
           [host_emit close]).
  - eapply Counted_intro; reflexivity.
  - reflexivity.
  - lia.
  - lia.
  - reflexivity.
  - cbn. lia.
  - reflexivity.
  - reflexivity.
Defined.

Lemma successful_mode_uncounts_on_finish_witness :
  (skipFailedRequests (with_options [p_skipSuccessfulRequests true]) = false
   ∧ skipSuccessfulRequests (with_options [p_skipSuccessfulRequests true]) = true)
  ∧ Forall close_or_error [host_emit close]
  ∧ (let r := serve (with_options [p_skipSuccessfulRequests true])
                    (MemoryStore 60000) successful_response (initial_state ∅) in
     List.filter is_decrement (events r)
     = (if 200 <? 400 then [StoreDecrement "10.0.0.1"] else [])
     ∧ contents (final r)
       = (if 200 <? 400 then memory_decrement "10.0.0.1" (one_hit 1 60000)
          else one_hit 1 60000)).
Proof.
  assert (Forall close_or_error [host_emit close]) as Hrest.
  { apply Forall_cons. split; [by left | apply Forall_nil_2]. }
  split; [split; reflexivity|]. split; [exact Hrest|].
  apply (successful_mode_uncounts_on_finish
           (with_options [p_skipSuccessfulRequests true]) (MemoryStore 60000)
           (conj eq_refl eq_refl) successful_response (initial_state ∅)
           "10.0.0.1" 1 (Some 60000) (one_hit 1 60000) memory_decrement 200
           [host_emit close]).
  - eapply Counted_intro; reflexivity.
  - reflexivity.
  - reflexivity.
  - exact Hrest.
Defined.

Lemma validated_failed_mode_never_throws_witness :
  RateLimit MemoryStore [p_skipFailedRequests true]
  = returns {| mw_call := rateLimit (with_options [p_skipFailedRequests true])
                                    (MemoryStore 60000);
               mw_resetKey := store_resetKey (MemoryStore 60000);
               mw_resetIp := store_resetKey (MemoryStore 60000) |}
  ∧ result (serve (Object_assign defaults [p_skipFailedRequests true])
                  (store_in_use MemoryStore
                     (Object_assign defaults [p_skipFailedRequests true]))
                  failing_response (initial_state ∅))
    = Ok tt
  ∧ count_of is_unhandled
      (events (rateLimit (Object_assign defaults [p_skipFailedRequests true])
                 (store_in_use MemoryStore
                    (Object_assign defaults [p_skipFailedRequests true]))
                 (request failing_response) (continuation failing_response)
                 (new_request (at_time failing_response) (initial_state ∅))))
    = 0%nat.
Proof.
  split; [reflexivity|].
  destruct (validated_failed_mode_never_throws MemoryStore
              [p_skipFailedRequests true]
              {| mw_call := rateLimit (with_options [p_skipFailedRequests true])
                                      (MemoryStore 60000);
                 mw_resetKey := store_resetKey (MemoryStore 60000);
                 mw_resetIp := store_resetKey (MemoryStore 60000) |}
              failing_response (initial_state ∅) false (plain "10.0.0.1")
              eq_refl eq_refl eq_refl (λ _, eq_refl)) as [Hok Hquiet].
  split; [exact Hok | exact (Hquiet eq_refl)].
Defined.

Lemma no_skip_option_no_listener_witness :
  skipFailedRequests (with_options []) = false
  ∧ skipSuccessfulRequests (with_options []) = false
  ∧ (let r := serve (with_options []) (MemoryStore 60000) failing_response
                    (initial_state ∅) in
     events r = events (rateLimit (with_options []) (MemoryStore 60000)
                          (request failing_response)
                          (continuation failing_response)
                          (new_request (at_time failing_response)
                                       (initial_state ∅)))
     ∧ count_of is_res_on (events r) = 0%nat
     ∧ count_of is_decrement (events r) = 0%nat
     ∧ listeners (final r) = []).
Proof.
  split; [reflexivity|]. split; [reflexivity|].
  apply (no_skip_option_no_listener (with_options []) (MemoryStore 60000)
           failing_response (initial_state ∅)); reflexivity.
Defined.


Lemma failed_mode_decrements_at_most_once_witness :
  skipSuccessfulRequests (with_options [p_skipFailedRequests true]) = false
  ∧ (count_of is_decrement
       (events (serve (with_options [p_skipFailedRequests true])
                      (MemoryStore 60000) failing_response (initial_state ∅)))
     ≤ 1)%nat.
Proof.
  split; [reflexivity|].
  apply (failed_mode_decrements_at_most_once
           (with_options [p_skipFailedRequests true]) (MemoryStore 60000)
           failing_response (initial_state ∅)).
  reflexivity.
Defined.

Lemma notification_only_when_blocked_witness :
  (∀ T, threshold_seen (with_options []) client express_next
                       (res late_in_window) = number T →
        Z.abs T ≤ MAX_SAFE_INTEGER)
  ∧ (let evs := events (rateLimit (with_options []) (MemoryStore 60000) client
                                  express_next late_in_window) in
     (count_of is_handler evs ≤ 1)%nat
     ∧ (count_of is_limit_reached evs ≤ count_of is_handler evs)%nat).
Proof.
  assert (∀ T, threshold_seen (with_options []) client express_next
                              (res late_in_window) = number T →
               Z.abs T ≤ MAX_SAFE_INTEGER) as Hsafe
    by (intros T [= <-]; done).
  split; [exact Hsafe|].
  destruct (notification_only_when_blocked (with_options []) (MemoryStore 60000)
              client express_next late_in_window) as [Hone Hle].
  split; [exact Hone | exact (Hle Hsafe)].
Defined.
